(** * nba.py: loading the NBA draft CSV into SQLite and querying it

    A shallow embedding of [51/clamytoe/nba.py].  The Python functions are
    modelled over an explicit [world] (the [players] table as the module's
    connection sees it, the number of [conn.commit()] calls, and the text that
    [_get_csv_data] returns).  The SQL statements are modelled by the
    operations SQLite runs for them: storage classes and their comparison
    order, [LIKE], the aggregates [COUNT], [MAX] and [AVG] with bare columns,
    [GROUP BY], [ORDER BY] and [LIMIT]; the routines of the engine that turn
    text into numbers and back are a parameter ([engine]).  The CSV side
    follows [csv.DictReader] over [str.splitlines]. *)

From Stdlib Require Import ZArith NArith QArith List Bool Lia String Ascii.
From Stdlib Require Import Sorting.Permutation Sorting.Sorted.
From Stdlib Require Import Floats.PrimFloat Floats.SpecFloat Floats.FloatOps.
From Stdlib Require Import Numbers.Cyclic.Int63.Uint63 Numbers.DecimalString Numbers.DecimalZ.
Import ListNotations.

Set Implicit Arguments.

(** ** Python strings

    A Python [str] is a sequence of Unicode code points. *)

Definition pystr := list N.

(** A literal of the source, written with its ASCII characters. *)
Definition str (s : string) : pystr :=
  map N_of_ascii (list_ascii_of_string s).

Fixpoint pystr_eqb (a b : pystr) : bool :=
  match a, b with
  | [], [] => true
  | x :: a', y :: b' => (x =? y)%N && pystr_eqb a' b'
  | _, _ => false
  end.

(** Code-point order, which is also the order of [memcmp] on the UTF-8
    encodings (SQLite's BINARY collation) and of Python's [sorted]. *)
Fixpoint str_compare (a b : pystr) : comparison :=
  match a, b with
  | [], [] => Eq
  | [], _ :: _ => Lt
  | _ :: _, [] => Gt
  | x :: a', y :: b' =>
      match N.compare x y with
      | Eq => str_compare a' b'
      | c => c
      end
  end.

(** ** Comparison functions that are total preorders *)

Class Order {A : Type} (cmp : A -> A -> comparison) : Prop := {
  cmp_opp : forall a b, cmp b a = CompOpp (cmp a b);
  cmp_eq_cong : forall a b c, cmp a b = Eq -> cmp a c = cmp b c;
  cmp_lt_trans : forall a b c, cmp a b = Lt -> cmp b c = Lt -> cmp a c = Lt
}.

Arguments cmp_opp {A} cmp {_} a b.
Arguments cmp_eq_cong {A} cmp {_} a b c _.
Arguments cmp_lt_trans {A} cmp {_} a b c _ _.

(** ** SQLite values

    The storage classes a cell of [players] can hold.  The [sqlite3] module
    maps them one to one on Python's [None], [int], [float] and [str], so the
    same type serves for what a query returns to Python.  The only writer of
    the table binds [str] and [None] parameters, so no cell is a BLOB. *)

Inductive value :=
| Null
| Integer (i : Z)
| Real (r : float)
| Text (s : pystr).

(** The exact value of a double, for comparisons.  SQLite compares numbers by
    value, an INTEGER against a REAL included. *)
Inductive xreal := NegInf | Fin (q : Q) | PosInf.

Definition xreal_compare (a b : xreal) : comparison :=
  match a, b with
  | NegInf, NegInf => Eq
  | NegInf, _ => Lt
  | _, NegInf => Gt
  | PosInf, PosInf => Eq
  | PosInf, _ => Gt
  | _, PosInf => Lt
  | Fin p, Fin q => Qcompare p q
  end.

(** A NaN is never stored (SQLite turns it into NULL); it is placed below
    every number only to keep the function total. *)
Definition float_xreal (r : float) : xreal :=
  match Prim2SF r with
  | S754_zero _ => Fin 0
  | S754_infinity true => NegInf
  | S754_infinity false => PosInf
  | S754_nan => NegInf
  | S754_finite s m e =>
      let n := if s then Z.neg m else Z.pos m in
      Fin (if (0 <=? e)%Z then inject_Z (n * 2 ^ e)
           else Qmake n (Z.to_pos (2 ^ (- e))))
  end.

Definition xval (v : value) : xreal :=
  match v with
  | Integer i => Fin (inject_Z i)
  | Real r => float_xreal r
  | _ => Fin 0
  end.

(** [sqlite3MemCompare] under the BINARY collation: NULL sorts first, then the
    numbers by value, then text by its bytes. *)
Definition value_compare (a b : value) : comparison :=
  match a, b with
  | Null, Null => Eq
  | Null, _ => Lt
  | _, Null => Gt
  | Text s, Text t => str_compare s t
  | Text _, _ => Gt
  | _, Text _ => Lt
  | _, _ => xreal_compare (xval a) (xval b)
  end.

Definition value_le (a b : value) : Prop := value_compare a b <> Gt.
Definition value_lt (a b : value) : Prop := value_compare a b = Lt.
Definition value_eqv (a b : value) : Prop := value_compare a b = Eq.

Definition value_leb (a b : value) : bool :=
  match value_compare a b with Gt => false | _ => true end.
Definition value_eqb (a b : value) : bool :=
  match value_compare a b with Eq => true | _ => false end.

Definition is_null (v : value) : bool :=
  match v with Null => true | _ => false end.

(** ** The engine's numeric routines

    How SQLite reads a number out of a text, prints a REAL and accumulates a
    floating-point sum depends on its version; these routines are taken as
    they come.  Everything else (storage classes, NULL handling, comparison,
    grouping, ordering) is written out below. *)

Inductive numeric :=
| NInt (i : Z)
| NReal (r : float).

Record engine := {
  (** the number a text denotes when the whole of it is a well-formed numeric
      literal; the column affinities INTEGER and REAL convert such a text *)
  text_number : pystr -> option numeric;
  (** the numeric reading of a text operand of an arithmetic operator or of
      an aggregate: its longest numeric prefix, zero when there is none *)
  text_prefix_number : pystr -> numeric;
  (** the text of a REAL, as [LIKE] sees it *)
  real_text : float -> pystr;
  (** the sum that [AVG] divides by the count *)
  numeric_sum : list numeric -> float
}.

(** A 64-bit integer as a double, rounded to nearest. *)
Definition Z_to_float (z : Z) : float :=
  if (z =? - 2 ^ 63)%Z then PrimFloat.opp (FloatOps.Z.ldexp 1%float 63)
  else if (z <? 0)%Z then PrimFloat.opp (PrimFloat.of_uint63 (Uint63.of_Z (- z)))
  else PrimFloat.of_uint63 (Uint63.of_Z z).

Definition real_value (n : numeric) : float :=
  match n with
  | NInt i => Z_to_float i
  | NReal r => r
  end.

Definition numeric_type (E : engine) (v : value) : option numeric :=
  match v with
  | Null => None
  | Integer i => Some (NInt i)
  | Real r => Some (NReal r)
  | Text s => Some (text_prefix_number E s)
  end.

(** Floating-point division: NULL when the divisor is zero or the quotient
    is not a number. *)
Definition real_div (x y : numeric) : value :=
  let ry := real_value y in
  if PrimFloat.eqb ry 0%float then Null
  else
    let q := PrimFloat.div (real_value x) ry in
    if PrimFloat.is_nan q then Null else Real q.

(** The operator [/]: integer division, truncating toward zero, when both
    operands are integers (the one quotient that overflows is computed in
    floating point); floating-point division otherwise; NULL when an operand
    is NULL or the divisor is zero. *)
Definition sql_div (E : engine) (a b : value) : value :=
  match numeric_type E a, numeric_type E b with
  | Some (NInt x), Some (NInt y) =>
      if (y =? 0)%Z then Null
      else if ((y =? -1) && (x =? - 2 ^ 63))%Z then real_div (NInt x) (NInt y)
      else Integer (Z.quot x y)
  | Some x, Some y => real_div x y
  | _, _ => Null
  end.

(** The operator [>] against a numeric literal; [None] is SQL's unknown.  The
    column keeps its storage class, so a text is greater than the literal. *)
Definition sql_gt (a b : value) : option bool :=
  match a, b with
  | Null, _ | _, Null => None
  | _, _ => Some (match value_compare a b with Gt => true | _ => false end)
  end.

(** A [WHERE] clause keeps the rows on which its condition is true. *)
Definition is_true (c : option bool) : bool :=
  match c with Some true => true | _ => false end.

(** *** LIKE *)

Definition percent : N := 37.
Definition underscore : N := 95.

(** SQLite's [LIKE] ignores the case of the ASCII letters only. *)
Definition ascii_lower (c : N) : N :=
  if ((65 <=? c) && (c <=? 90))%N then (c + 32)%N else c.

Fixpoint like_match (pattern s : pystr) : bool :=
  match pattern with
  | [] => match s with [] => true | _ => false end
  | c :: pattern' =>
      if (c =? percent)%N then
        (fix any (s : pystr) : bool :=
           like_match pattern' s
           || match s with [] => false | _ :: s' => any s' end) s
      else
        match s with
        | [] => false
        | d :: s' =>
            ((c =? underscore)%N || (ascii_lower c =? ascii_lower d)%N)
            && like_match pattern' s'
        end
  end.

Definition Z_text (i : Z) : pystr :=
  str (DecimalString.NilZero.string_of_int (Z.to_int i)).

Definition value_text (E : engine) (v : value) : option pystr :=
  match v with
  | Null => None
  | Integer i => Some (Z_text i)
  | Real r => Some (real_text E r)
  | Text s => Some s
  end.

(** [v LIKE pattern]: both operands are read as text. *)
Definition sql_like (E : engine) (v pattern : value) : option bool :=
  match value_text E pattern, value_text E v with
  | Some p, Some s => Some (like_match p s)
  | _, _ => None
  end.

(** *** Aggregates *)

(** [COUNT(X)] counts the rows on which [X] is not NULL. *)
Definition sql_count {R : Type} (col : R -> value) (rows : list R) : Z :=
  Z.of_nat (List.length (filter (fun r => negb (is_null (col r))) rows)).

(** [SELECT bare, MAX(key)] without [GROUP BY].  [best] is the accumulator of
    [MAX]: empty until the first argument that is not NULL, replaced only by a
    strictly greater one.  [bare] is the row whose bare columns the result
    shows: the engine reloads them on every row, except when [MAX] reports
    that the row did not change its accumulator. *)
Record max_agg (R : Type) := {
  best : option value;
  bare : option R
}.

Definition max_step {R : Type} (key : R -> value) (a : max_agg R) (r : R)
  : max_agg R :=
  match key r, best a with
  | Null, None => {| best := None; bare := Some r |}
  | Null, Some _ => a
  | v, None => {| best := Some v; bare := Some r |}
  | v, Some b =>
      match value_compare b v with
      | Lt => {| best := Some v; bare := Some r |}
      | _ => a
      end
  end.

Definition select_max {R : Type} (key : R -> value) (rows : list R) : max_agg R :=
  fold_left (max_step key) rows {| best := None; bare := None |}.

(** A column of the one result row; NULL when no row was scanned. *)
Definition bare_column {R : Type} (col : R -> value) (a : max_agg R) : value :=
  match bare a with
  | Some r => col r
  | None => Null
  end.

(** [AVG(X)]: NULL without a non-NULL input, else the sum over the count; a
    quotient that is not a number comes out as NULL, as every REAL result
    does. *)
Definition sql_avg (E : engine) (vals : list value) : value :=
  let nums :=
    flat_map (fun v => match numeric_type E v with
                       | Some n => [n]
                       | None => []
                       end) vals in
  match nums with
  | [] => Null
  | _ =>
      let q := PrimFloat.div (numeric_sum E nums)
                 (Z_to_float (Z.of_nat (List.length nums))) in
      if PrimFloat.is_nan q then Null else Real q
  end.

(** *** ORDER BY, LIMIT and GROUP BY *)

(** The sort behind [ORDER BY]: rows that compare equal keep the order in
    which the scan produced them. *)
Fixpoint insert_by {R : Type} (le : R -> R -> bool) (x : R) (l : list R) : list R :=
  match l with
  | [] => [x]
  | y :: l' => if le x y then x :: l else y :: insert_by le x l'
  end.

Fixpoint sort_by {R : Type} (le : R -> R -> bool) (l : list R) : list R :=
  match l with
  | [] => []
  | x :: l' => insert_by le x (sort_by le l')
  end.

Definition asc {R : Type} (key : R -> value) (a b : R) : bool :=
  value_leb (key a) (key b).

Definition desc {R : Type} (key : R -> value) (a b : R) : bool :=
  value_leb (key b) (key a).

(** The groups of an ascending run of keys, each with its [COUNT(key)]:
    the group of NULL counts nothing. *)
Fixpoint group_runs (keys : list value) : list (value * Z) :=
  match keys with
  | [] => []
  | k :: rest =>
      let c := if is_null k then 0%Z else 1%Z in
      match group_runs rest with
      | (k', n) :: gs =>
          if value_eqb k k' then (k, (c + n)%Z) :: gs
          else (k, c) :: (k', n) :: gs
      | [] => [(k, c)]
      end
  end.

(** [SELECT key, COUNT(key) AS count FROM ... GROUP BY key]: the engine sorts
    the rows on the key and emits one row per group, in ascending key order. *)
Definition group_by_count {R : Type} (key : R -> value) (rows : list R)
  : list (value * Z) :=
  group_runs (sort_by (asc (fun v => v)) (map key rows)).

(** ** Exceptions and results *)

Inductive exn :=
| OperationalError          (* sqlite3: no such table: players *)
| ZeroDivisionError
| KeyError (key : pystr)
| CsvError.                 (* _csv.Error *)

Inductive result (A : Type) :=
| Ok (a : A)
| Raise (e : exn).

Arguments Ok {A} a.
Arguments Raise {A} e.

(** What a generator hands out before it ends, and the exception that ends
    it, if one does. *)
Record stream (A : Type) := {
  yielded : list A;
  raised : option exn
}.

(** ** str.splitlines *)

Definition is_line_boundary (c : N) : bool :=
  existsb (N.eqb c) [10; 13; 11; 12; 28; 29; 30; 133; 8232; 8233]%N.

(** [cur] holds the characters of the current line, last one first. *)
Fixpoint splitlines_from (cur : pystr) (s : pystr) : list pystr :=
  match s with
  | [] => match cur with [] => [] | _ => [rev cur] end
  | c :: rest =>
      if is_line_boundary c then
        rev cur ::
        match rest with
        | d :: rest' =>
            if ((c =? 13) && (d =? 10))%N then splitlines_from [] rest'
            else splitlines_from [] rest
        | [] => []
        end
      else splitlines_from (c :: cur) rest
  end.

Definition splitlines (s : pystr) : list pystr := splitlines_from [] s.

(** ** csv.reader, excel dialect

    The parser of [_csv.c] with the dialect [csv.DictReader] gets here:
    comma as delimiter, the double quote as quotechar, doubled quotes, no
    escape character, not strict.  A character [None] stands for the
    end-of-line mark the reader feeds after the characters of each line. *)

Inductive parser_state :=
| START_RECORD
| START_FIELD
| IN_FIELD
| IN_QUOTED_FIELD
| QUOTE_IN_QUOTED_FIELD
| EAT_CRNL.

Record reader := {
  state : parser_state;
  field : pystr;
  fields : list pystr
}.

Definition delimiter : N := 44.
Definition quotechar : N := 34.
Definition field_limit : N := 131072.

Definition parse_reset : reader :=
  {| state := START_RECORD; field := []; fields := [] |}.

Definition parse_save_field (st : parser_state) (r : reader) : reader :=
  {| state := st; field := []; fields := fields r ++ [field r] |}.

Definition parse_add_char (st : parser_state) (r : reader) (c : N) : result reader :=
  if (field_limit <=? N.of_nat (List.length (field r)))%N then Raise CsvError
  else Ok {| state := st; field := field r ++ [c]; fields := fields r |}.

Definition set_state (st : parser_state) (r : reader) : reader :=
  {| state := st; field := field r; fields := fields r |}.

Definition is_newline (c : N) : bool := ((c =? 10) || (c =? 13))%N.

(** The case [START_FIELD], which [START_RECORD] falls through to. *)
Definition start_field (r : reader) (c : option N) : result reader :=
  match c with
  | None => Ok (parse_save_field START_RECORD r)
  | Some x =>
      if is_newline x then Ok (parse_save_field EAT_CRNL r)
      else if (x =? quotechar)%N then Ok (set_state IN_QUOTED_FIELD r)
      else if (x =? delimiter)%N then Ok (parse_save_field START_FIELD r)
      else parse_add_char IN_FIELD r x
  end.

Definition parse_process_char (r : reader) (c : option N) : result reader :=
  match state r with
  | START_RECORD =>
      match c with
      | None => Ok r
      | Some x =>
          if is_newline x then Ok (set_state EAT_CRNL r)
          else start_field r c
      end
  | START_FIELD => start_field r c
  | IN_FIELD =>
      match c with
      | None => Ok (parse_save_field START_RECORD r)
      | Some x =>
          if is_newline x then Ok (parse_save_field EAT_CRNL r)
          else if (x =? delimiter)%N then Ok (parse_save_field START_FIELD r)
          else parse_add_char IN_FIELD r x
      end
  | IN_QUOTED_FIELD =>
      match c with
      | None => Ok r
      | Some x =>
          if (x =? quotechar)%N then Ok (set_state QUOTE_IN_QUOTED_FIELD r)
          else parse_add_char IN_QUOTED_FIELD r x
      end
  | QUOTE_IN_QUOTED_FIELD =>
      match c with
      | None => Ok (parse_save_field START_RECORD r)
      | Some x =>
          if (x =? quotechar)%N then parse_add_char IN_QUOTED_FIELD r x
          else if (x =? delimiter)%N then Ok (parse_save_field START_FIELD r)
          else if is_newline x then Ok (parse_save_field EAT_CRNL r)
          else parse_add_char IN_FIELD r x
      end
  | EAT_CRNL =>
      match c with
      | None => Ok (set_state START_RECORD r)
      | Some x => if is_newline x then Ok r else Raise CsvError
      end
  end.

Fixpoint process_chars (r : reader) (line : pystr) : result reader :=
  match line with
  | [] => Ok r
  | c :: line' =>
      match parse_process_char r (Some c) with
      | Ok r' => process_chars r' line'
      | Raise e => Raise e
      end
  end.

(** One line of the input: its characters, then the end-of-line mark. *)
Definition process_line (r : reader) (line : pystr) : result reader :=
  match process_chars r line with
  | Ok r' => parse_process_char r' None
  | Raise e => Raise e
  end.

Definition is_start_record (st : parser_state) : bool :=
  match st with START_RECORD => true | _ => false end.

Definition is_in_quoted_field (st : parser_state) : bool :=
  match st with IN_QUOTED_FIELD => true | _ => false end.

(** The rows that successive [next(reader)] calls return.  Each call resets
    the parser and reads lines until the parser is back at the start of a
    record; at the end of the input an unfinished record is handed out if a
    field is under way. *)
Fixpoint reader_rows_from (r : reader) (lines : list pystr) : stream (list pystr) :=
  match lines with
  | [] =>
      if negb (Nat.eqb (List.length (field r)) 0) || is_in_quoted_field (state r)
      then {| yielded := [fields (parse_save_field (state r) r)]; raised := None |}
      else {| yielded := []; raised := None |}
  | line :: rest =>
      match process_line r line with
      | Raise e => {| yielded := []; raised := Some e |}
      | Ok r' =>
          if is_start_record (state r') then
            let s := reader_rows_from parse_reset rest in
            {| yielded := fields r' :: yielded s; raised := raised s |}
          else reader_rows_from r' rest
      end
  end.

Definition reader_rows (lines : list pystr) : stream (list pystr) :=
  reader_rows_from parse_reset lines.

(** ** csv.DictReader *)

(** A row as a [dict]: the latest binding of a key comes first.  The entry
    under the key [None], which collects the surplus fields of a long row,
    is left out: [load_data] looks up string keys only. *)
Definition dict := list (pystr * option pystr).

Definition dict_set (d : dict) (k : pystr) (v : option pystr) : dict :=
  (k, v) :: d.

Fixpoint dict_get (d : dict) (k : pystr) : option (option pystr) :=
  match d with
  | [] => None
  | (k', v) :: d' => if pystr_eqb k k' then Some v else dict_get d' k
  end.

(** [dict(zip(fieldnames, row))], then [restval = None] under the field names
    that a short row leaves without a value. *)
Definition make_dict (fieldnames row : list pystr) : dict :=
  let d := fold_left (fun d kv => dict_set d (fst kv) (Some (snd kv)))
             (combine fieldnames row) [] in
  fold_left (fun d k => dict_set d k None)
    (skipn (List.length row) fieldnames) d.

Definition is_blank_row (row : list pystr) : bool :=
  match row with [] => true | _ => false end.

(** The first row the reader returns gives the field names; later rows that
    are empty lists are skipped. *)
Definition DictReader (lines : list pystr) : stream dict :=
  let s := reader_rows lines in
  match yielded s with
  | [] => {| yielded := []; raised := raised s |}
  | fieldnames :: rows =>
      {| yielded := map (make_dict fieldnames)
                      (filter (fun row => negb (is_blank_row row)) rows);
         raised := raised s |}
  end.

(** ** The module nba.py *)

(** The namedtuple [Player]: every field is the [str] the CSV row holds under
    the column, or [None]. *)
Module Player.
Record t := make {
  name : option pystr;
  year : option pystr;
  first_year : option pystr;
  team : option pystr;
  college : option pystr;
  active : option pystr;
  games : option pystr;
  avg_min : option pystr;
  avg_points : option pystr
}.
End Player.

(** A row of the table [players], by column. *)
Record row := {
  name : value;
  year : value;
  first_year : value;
  team : value;
  college : value;
  active : value;
  games : value;
  avg_min : value;
  avg_points : value
}.

(** The rows in rowid order, which is the order of insertion: the module
    never deletes a row and never sets a rowid. *)
Definition table := list row.

(** What the module's functions read and change: the table [players] as the
    connection [conn] sees it ([None] while it does not exist), how often
    [conn.commit()] ran, and the CSV text behind [_get_csv_data] (the cache
    file or else the body of the HTTP response). *)
Record world := {
  players : option table;
  commits : nat;
  csv_source : pystr
}.

Definition M (A : Type) : Type := world -> result A * world.

Definition ret {A : Type} (a : A) : M A := fun w => (Ok a, w).

Definition raise {A : Type} (e : exn) : M A := fun w => (Raise e, w).

Definition bind {A B : Type} (m : M A) (k : A -> M B) : M B :=
  fun w =>
    match m w with
    | (Ok a, w') => k a w'
    | (Raise e, w') => (Raise e, w')
    end.

Notation "x <- m ;; k" := (bind m (fun x => k))
  (at level 61, m at next level, right associativity).

(** [cur.execute(sql)] for a [SELECT] over [players]: the statement reads the
    table and fails when there is none. *)
Definition execute {A : Type} (select : table -> A) : M A :=
  fun w =>
    match players w with
    | Some t => (Ok (select t), w)
    | None => (Raise OperationalError, w)
    end.

(** The text of the cache file or, without one, of the HTTP response. *)
Definition _get_csv_data : M pystr :=
  fun w => (Ok (csv_source w), w).

(** [row[key]] *)
Definition getitem (d : dict) (key : pystr) : result (option pystr) :=
  match dict_get d key with
  | Some v => Ok v
  | None => Raise (KeyError key)
  end.

Definition rbind {A B : Type} (r : result A) (k : A -> result B) : result B :=
  match r with
  | Ok a => k a
  | Raise e => Raise e
  end.

(** The [Player(...)] call of [load_data]; the keyword arguments are
    evaluated in the order they are written. *)
Definition make_player (d : dict) : result Player.t :=
  rbind (getitem d (str "Player")) (fun name =>
  rbind (getitem d (str "Draft_Yr")) (fun year =>
  rbind (getitem d (str "first_year")) (fun first_year =>
  rbind (getitem d (str "Team")) (fun team =>
  rbind (getitem d (str "College")) (fun college =>
  rbind (getitem d (str "Yrs")) (fun active =>
  rbind (getitem d (str "Games")) (fun games =>
  rbind (getitem d (str "Minutes.per.Game")) (fun avg_min =>
  rbind (getitem d (str "Points.per.Game")) (fun avg_points =>
  Ok (Player.make name year first_year team college active games
        avg_min avg_points)))))))))).

(** The loop of [load_data] over the rows of the reader: [e] is how the
    reader itself ends. *)
Fixpoint yield_players (rows : list dict) (e : option exn) : stream Player.t :=
  match rows with
  | [] => {| yielded := []; raised := e |}
  | d :: rest =>
      match make_player d with
      | Ok p =>
          let s := yield_players rest e in
          {| yielded := p :: yielded s; raised := raised s |}
      | Raise x => {| yielded := []; raised := Some x |}
      end
  end.

Definition parse_players (content : pystr) : stream Player.t :=
  let reader := DictReader (splitlines content) in
  yield_players (yielded reader) (raised reader).

Definition load_data : M (stream Player.t) :=
  content <- _get_csv_data ;;
  ret (parse_players content).

Section Nba.
Variable E : engine.

(** *** import_to_db *)

Inductive affinity := TEXT | INTEGER | REAL.

(** A REAL that is a whole number strictly inside the 64-bit range. *)
Definition real_to_integer (r : float) : option Z :=
  match float_xreal r with
  | Fin q =>
      let q' := Qred q in
      if (Pos.eqb (Qden q') 1
          && (- 2 ^ 63 <? Qnum q')%Z && (Qnum q' <? 2 ^ 63 - 1)%Z)%bool
      then Some (Qnum q')
      else None
  | _ => None
  end.

(** What a column of the given affinity stores for a bound [str]: a text
    that is a well-formed number goes into an INTEGER or REAL column as that
    number, any other text stays text. *)
Definition store_text (a : affinity) (s : pystr) : value :=
  match a with
  | TEXT => Text s
  | INTEGER =>
      match text_number E s with
      | Some (NInt i) => Integer i
      | Some (NReal r) =>
          match real_to_integer r with
          | Some i => Integer i
          | None => Real r
          end
      | None => Text s
      end
  | REAL =>
      match text_number E s with
      | Some n => Real (real_value n)
      | None => Text s
      end
  end.

Definition store (a : affinity) (x : option pystr) : value :=
  match x with
  | None => Null
  | Some s => store_text a s
  end.

(** [INSERT INTO players VALUES (?, ?, ?, ?, ?, ?, ?, ?, ?)] with the nine
    fields of a [Player], under the column types of [CREATE TABLE]. *)
Definition insert_player (p : Player.t) : row :=
  {| name := store TEXT (Player.name p);
     year := store INTEGER (Player.year p);
     first_year := store INTEGER (Player.first_year p);
     team := store TEXT (Player.team p);
     college := store TEXT (Player.college p);
     active := store INTEGER (Player.active p);
     games := store INTEGER (Player.games p);
     avg_min := store REAL (Player.avg_min p);
     avg_points := store REAL (Player.avg_points p) |}.

(** [CREATE TABLE IF NOT EXISTS players (...)] *)
Definition create_players_table : M unit :=
  fun w =>
    match players w with
    | Some _ => (Ok tt, w)
    | None =>
        (Ok tt, {| players := Some []; commits := commits w;
                   csv_source := csv_source w |})
    end.

(** [cur.executemany(add_player_sql, ...)]: the rows the generator hands out
    are inserted one after the other; an exception of the generator ends the
    call and leaves the rows inserted so far in the open transaction. *)
Definition executemany (s : stream Player.t) : M unit :=
  fun w =>
    match players w with
    | None => (Raise OperationalError, w)
    | Some t =>
        let w' := {| players := Some (t ++ map insert_player (yielded s));
                     commits := commits w; csv_source := csv_source w |} in
        match raised s with
        | Some e => (Raise e, w')
        | None => (Ok tt, w')
        end
    end.

Definition commit : M unit :=
  fun w =>
    (Ok tt, {| players := players w; commits := S (commits w);
               csv_source := csv_source w |}).

(** [players] is any Python object; the function only asks whether it is
    [None]. *)
Definition import_to_db {P : Type} (players : option P) : M unit :=
  _ <- create_players_table ;;
  match players with
  | None =>
      data <- load_data ;;
      _ <- executemany data ;;
      commit
  | Some _ => ret tt
  end.

(** *** The queries *)

(** [SELECT COUNT(<column>) FROM players] *)
Definition _total_records (column : row -> value) : M Z :=
  execute (fun t => sql_count column t).

(** [SELECT name, MAX(avg_points) FROM players], first column. *)
Definition player_with_max_points_per_game : M value :=
  execute (fun t => bare_column name (select_max avg_points t)).

(** [SELECT COUNT(name) FROM players WHERE college LIKE 'Duke University'] *)
Definition number_of_players_from_duke : M Z :=
  execute (fun t =>
    sql_count name
      (filter (fun r => is_true (sql_like E (college r)
                                   (Text (str "Duke University")))) t)).

(** Python's [/] on two [int]s and [*] of the quotient with [100].  The
    conversion of the counts is exact below 2^53, where the quotient of the
    doubles is the correctly rounded quotient Python computes. *)
Definition truediv (a b : Z) : M float :=
  if (b =? 0)%Z then raise ZeroDivisionError
  else ret (PrimFloat.div (Z_to_float a) (Z_to_float b)).

Definition percentage_of_players_first_year : M float :=
  total <- _total_records first_year ;;
  first_year_players <-
    execute (fun t =>
      sql_count first_year
        (filter (fun r => is_true (sql_like E (first_year r) (Integer 1))) t)) ;;
  q <- truediv first_year_players total ;;
  ret (PrimFloat.mul q (Z_to_float 100)).

(** [SELECT AVG(active) FROM players WHERE college LIKE 'Stanford University'] *)
Definition avg_years_active_players_stanford : M value :=
  execute (fun t =>
    sql_avg E
      (map active
         (filter (fun r => is_true (sql_like E (college r)
                                      (Text (str "Stanford University")))) t))).

(** [SELECT year, MAX(count) FROM (SELECT year, COUNT(year) AS count FROM
    players GROUP BY year)], first column. *)
Definition year_with_most_drafts : M value :=
  execute (fun t =>
    bare_column fst
      (select_max (fun g => Integer (snd g)) (group_by_count year t))).

(** The inner [SELECT name, games/active AS games_per_year FROM players
    WHERE active > 10 ORDER BY games_per_year DESC LIMIT 6]. *)
Definition veterans_subquery (t : table) : list (value * value) :=
  firstn 6
    (sort_by (desc snd)
       (map (fun r => (name r, sql_div E (games r) (active r)))
          (filter (fun r => is_true (sql_gt (active r) (Integer 10))) t))).

(** [SELECT name FROM (...) ORDER BY name], and the list of the first
    columns. *)
Definition most_games_per_year_for_veterans : M (list value) :=
  execute (fun t => map fst (sort_by (asc fst) (veterans_subquery t))).

End Nba.

(** ** Notions the properties are stated with *)

(** In how many of the values [v] occurs, NULL never counting as an
    occurrence: the number [COUNT] reports for the group of [v]. *)
Definition occurrences (v : value) (vs : list value) : Z :=
  Z.of_nat (List.length
              (filter (fun u => value_eqb u v && negb (is_null u)) vs)).

(** The number of rows that satisfy a condition. *)
Definition count_rows (p : row -> bool) (t : table) : Z :=
  Z.of_nat (List.length (filter p t)).



(** The veterans query as the specification words it: among the rows with
    [active > minActiveYears], rank by [games / active] in real division,
    greatest first, rows of equal ratio by name; take the first [topN]; hand
    out their names in ascending order. *)
Definition spec_ratio (E : engine) (r : row) : value :=
  match numeric_type E (games r), numeric_type E (active r) with
  | Some x, Some y => real_div x y
  | _, _ => Null
  end.

Definition spec_rank (E : engine) (a b : row) : bool :=
  match value_compare (spec_ratio E b) (spec_ratio E a) with
  | Lt => true
  | Eq => value_leb (name a) (name b)
  | Gt => false
  end.

Definition spec_top_veterans (E : engine) (minActiveYears : Z) (topN : nat)
  (t : table) : list value :=
  let veterans :=
    filter (fun r => is_true (sql_gt (active r) (Integer minActiveYears))) t in
  map name (sort_by (asc name) (firstn topN (sort_by (spec_rank E) veterans))).


(** The college of a row is exactly the given string. *)
Definition college_is (s : pystr) (r : row) : bool :=
  match college r with
  | Text c => pystr_eqb c s
  | _ => false
  end.

(** The nine columns [load_data] reads. *)
Definition required_columns : list pystr :=
  map str ["Player"; "Draft_Yr"; "first_year"; "Team"; "College"; "Yrs";
           "Games"; "Minutes.per.Game"; "Points.per.Game"]%string.

(** The row of a line that is a record by itself: read from the start of a
    record, the line brings the parser back to the start of a record. *)
Definition line_row (line : pystr) : option (list pystr) :=
  match process_line parse_reset line with
  | Ok r => if is_start_record (state r) then Some (fields r) else None
  | Raise _ => None
  end.

(** The position of the last header column with the given name. *)
Fixpoint last_index (k : pystr) (fieldnames : list pystr) : option nat :=
  match fieldnames with
  | [] => None
  | k' :: rest =>
      match last_index k rest with
      | Some i => Some (S i)
      | None => if pystr_eqb k k' then Some 0%nat else None
      end
  end.

(** The field of a row under a column: [None] when the header has no such
    column or the row ends before it. *)
Definition cell (fieldnames row : list pystr) (k : pystr) : option pystr :=
  match last_index k fieldnames with
  | Some i => nth_error row i
  | None => None
  end.

(** The record of a row, column by column. *)
Definition player_of_row (fieldnames row : list pystr) : Player.t :=
  Player.make
    (cell fieldnames row (str "Player"))
    (cell fieldnames row (str "Draft_Yr"))
    (cell fieldnames row (str "first_year"))
    (cell fieldnames row (str "Team"))
    (cell fieldnames row (str "College"))
    (cell fieldnames row (str "Yrs"))
    (cell fieldnames row (str "Games"))
    (cell fieldnames row (str "Minutes.per.Game"))
    (cell fieldnames row (str "Points.per.Game")).

(** The fields of a record, in the order of [required_columns]. *)
Definition player_fields (p : Player.t) : list (option pystr) :=
  [Player.name p; Player.year p; Player.first_year p; Player.team p;
   Player.college p; Player.active p; Player.games p; Player.avg_min p;
   Player.avg_points p].

(** The states in which the parser is inside a record. *)
Definition in_record (st : parser_state) : bool :=
  match st with
  | START_FIELD | IN_FIELD | IN_QUOTED_FIELD | QUOTE_IN_QUOTED_FIELD => true
  | START_RECORD | EAT_CRNL => false
  end.

(** The row of a line, the empty list when the line is no record by
    itself. *)
Definition row_of (line : pystr) : list pystr :=
  match line_row line with
  | Some row => row
  | None => []
  end.

(** The header zipped with a row, [None] standing in where the row has
    ended. *)
Fixpoint pad_zip (fieldnames row : list pystr) : dict :=
  match fieldnames with
  | [] => []
  | k :: rest =>
      match row with
      | [] => (k, None) :: pad_zip rest []
      | v :: row' => (k, Some v) :: pad_zip rest row'
      end
  end.

(** A cell of [avg_points] that holds a number or nothing: NULL, an integer
    or a REAL, which is never a NaN.  A text, which the REAL column keeps
    for a field that is no number, is not such a cell. *)
Definition points_cell (v : value) : Prop :=
  match v with
  | Null | Integer _ => True
  | Real r => PrimFloat.is_nan r = false
  | Text _ => False
  end.

(** The max-points query as the specification words it: the name of the
    first row, in insertion order, whose [avg_points] no row of the table
    exceeds. *)
Definition spec_max_points_player (t : table) : value :=
  match find (fun r => forallb (fun r' => value_leb (avg_points r') (avg_points r)) t) t with
  | Some r => name r
  | None => Null
  end.

(** The lines of a CSV text as a reader of the file counts them: a line ends
    at a line feed, which a carriage return may precede, or at the end of
    the text.  [cur] holds the characters of the current line, last one
    first. *)
Fixpoint csv_lines_from (cur : pystr) (s : pystr) : list pystr :=
  match s with
  | [] => match cur with [] => [] | _ => [rev cur] end
  | c :: rest =>
      if (c =? 10)%N then rev cur :: csv_lines_from [] rest
      else
        match rest with
        | d :: rest' =>
            if ((c =? 13) && (d =? 10))%N then rev cur :: csv_lines_from [] rest'
            else csv_lines_from (c :: cur) rest
        | [] => csv_lines_from (c :: cur) rest
        end
  end.

Definition csv_lines (s : pystr) : list pystr := csv_lines_from [] s.

(** No character of the line is one at which [str.splitlines] ends a
    line. *)
Definition no_line_boundary (line : pystr) : Prop :=
  Forall (fun c => is_line_boundary c = false) line.

(** ** Sample data *)

(** An engine for tables whose cells hold their declared storage class: no
    query over such a table consults the text routines. *)
Definition plain_engine : engine :=
  {| text_number := fun _ => None;
     text_prefix_number := fun _ => NInt 0;
     real_text := fun _ => [];
     numeric_sum :=
       fun ns => fold_left PrimFloat.add (map real_value ns) 0%float |}.

Definition sample_row (n : string) (y fy : Z) (c : string) (a g : Z) (pts : float)
  : row :=
  {| name := Text (str n); year := Integer y; first_year := Integer fy;
     team := Text (str "CHI"); college := Text (str c);
     active := Integer a; games := Integer g;
     avg_min := Real 30; avg_points := Real pts |}.

Definition sample_table : table :=
  [ sample_row "Alex English" 1976 0 "University of South Carolina"
      15 1193 21.5;
    sample_row "Michael Jordan" 1984 1 "University of North Carolina"
      15 1072 30.125;
    sample_row "John Stockton" 1984 0 "Gonzaga University"
      19 1504 13.125 ].

Definition sample_world : world :=
  {| players := Some sample_table; commits := 1; csv_source := [] |}.

(** Eight veterans: four far ahead, and four whose integer ratio is 2 while
    their real ratios differ. *)
Definition veterans_table : table :=
  [ sample_row "Xa" 1980 0 "" 11 23 10;
    sample_row "Ya" 1980 0 "" 11 32 10;
    sample_row "A" 1980 0 "" 11 880 10;
    sample_row "B" 1980 0 "" 11 870 10;
    sample_row "C" 1980 0 "" 11 860 10;
    sample_row "D" 1980 0 "" 11 850 10;
    sample_row "Yb" 1980 0 "" 11 31 10;
    sample_row "Xb" 1980 0 "" 11 24 10 ].

Definition veterans_world : world :=
  {| players := Some veterans_table; commits := 1; csv_source := [] |}.

Definition names (l : list string) : list value :=
  map (fun n => Text (str n)) l.

(** One player, whose college is written in lower case. *)
Definition lowercase_duke_table : table :=
  [ sample_row "Grant Hill" 1994 0 "duke university" 19 1026 16.75 ].

Definition lowercase_duke_world : world :=
  {| players := Some lowercase_duke_table; commits := 1; csv_source := [] |}.

Definition newline : pystr := [10%N].

Definition csv_header : pystr :=
  str "Player,Draft_Yr,first_year,Team,College,Yrs,Games,Minutes.per.Game,Points.per.Game".

Definition jordan_line : pystr :=
  str "Michael Jordan,1984,1,CHI,University of North Carolina,15,1072,38.3,30.1".

Definition bowie_line : pystr := str "Sam Bowie,1984".

(** A file whose second data row stops after the draft year. *)
Definition short_row_csv : pystr :=
  csv_header ++ newline ++ jordan_line ++ newline ++ bowie_line ++ newline.

Definition short_row_world : world :=
  {| players := None; commits := 0; csv_source := short_row_csv |}.

Definition jordan : Player.t :=
  Player.make (Some (str "Michael Jordan")) (Some (str "1984")) (Some (str "1"))
    (Some (str "CHI")) (Some (str "University of North Carolina"))
    (Some (str "15")) (Some (str "1072")) (Some (str "38.3")) (Some (str "30.1")).

Definition bowie : Player.t :=
  Player.make (Some (str "Sam Bowie")) (Some (str "1984")) None None None None
    None None None.

(** ** The check of the driver *)

(** [_verify_total_row_count_after_import], the helper the driver defines
    under [__main__]: the count of all rows of [players], read off the first
    column of the first row of [fetchall()]. *)
Definition _verify_total_row_count_after_import : M Z :=
  execute (fun t => Z.of_nat (List.length t)).

(** ** Further notions *)

(** The rows of the table, none while it does not exist. *)
Definition rows_of (w : world) : table :=
  match players w with
  | Some t => t
  | None => []
  end.

(** The first of the nine columns that the header does not name. *)
Definition first_missing_column (fieldnames : list pystr) : option pystr :=
  find (fun k => negb (existsb (pystr_eqb k) fieldnames)) required_columns.

Definition is_blank_line (line : pystr) : bool :=
  match line with [] => true | _ => false end.


(** Writing CSV the usual way.  A field goes out as it is when it holds no
    comma, no double quote and no line break, or else between double quotes
    with every double quote doubled; the fields of a row are joined by
    commas; every line ends with a line feed. *)
Definition plain_char (c : N) : bool :=
  negb (is_line_boundary c) && negb (c =? quotechar)%N && negb (c =? delimiter)%N.

Definition csv_quote (f : pystr) : pystr :=
  quotechar
  :: flat_map (fun c => if (c =? quotechar)%N then [quotechar; quotechar] else [c]) f
  ++ [quotechar].

Definition csv_field (f : pystr) : pystr :=
  match f with
  | [] => csv_quote f
  | _ => if forallb plain_char f then f else csv_quote f
  end.

Fixpoint csv_line (row : list pystr) : pystr :=
  match row with
  | [] => []
  | [f] => csv_field f
  | f :: rest => csv_field f ++ delimiter :: csv_line rest
  end.

Definition csv_text (lines : list pystr) : pystr :=
  flat_map (fun l => l ++ [10%N]) lines.

(** The fields a written file can carry through [splitlines] and the field
    limit of the reader: no line boundary inside, at most [field_limit]
    characters. *)
Definition writable (row : list pystr) : Prop :=
  Forall (fun f => Forall (fun c => is_line_boundary c = false) f /\
                   (N.of_nat (List.length f) <= field_limit)%N) row.

(** ** Further sample data *)

(** A file with an empty line between its two data rows. *)
Definition blank_line_world : world :=
  {| players := None; commits := 0;
     csv_source := csv_header ++ newline ++ jordan_line ++ newline ++ newline
                   ++ bowie_line ++ newline |}.

(** A file whose header names two of the nine columns. *)
Definition short_header : pystr := str "Player,Draft_Yr".

Definition short_header_world : world :=
  {| players := None; commits := 0;
     csv_source := short_header ++ newline ++ bowie_line ++ newline |}.

(** A row without points and without a first-year flag. *)
Definition null_points_row (n : string) : row :=
  {| name := Text (str n); year := Integer 1986; first_year := Null;
     team := Text (str "BOS"); college := Text (str "University of Maryland");
     active := Null; games := Null; avg_min := Null; avg_points := Null |}.

Definition null_points_world : world :=
  {| players := Some [null_points_row "Len Bias"; null_points_row "Sam Bowie"];
     commits := 1; csv_source := [] |}.

Definition null_flag_world : world :=
  {| players := Some [null_points_row "Len Bias"]; commits := 1;
     csv_source := [] |}.

(** A row whose points are the text [NA]. *)
Definition not_available_row : row :=
  {| name := Text (str "Len Bias"); year := Integer 1986; first_year := Integer 0;
     team := Text (str "BOS"); college := Text (str "University of Maryland");
     active := Text (str "NA"); games := Text (str "NA");
     avg_min := Text (str "NA"); avg_points := Text (str "NA") |}.

Definition text_points_table : table :=
  [ sample_row "Michael Jordan" 1984 1 "University of North Carolina"
      15 1072 30.125;
    not_available_row ].

Definition text_points_world : world :=
  {| players := Some text_points_table; commits := 1; csv_source := [] |}.

Definition reversed_sample_world : world :=
  {| players := Some (rev sample_table); commits := 1; csv_source := [] |}.




(** A row with a comma and with double quotes inside fields, and an empty
    field. *)
Definition johnson_row : list pystr :=
  [ str "Earvin " ++ quotechar :: str "Magic" ++ quotechar :: str " Johnson";
    str "1979"; str "0"; str "LAL"; str "Michigan State University, East Lansing";
    str "13"; str "906"; []; str "19.5" ].

Definition written_world : world :=
  {| players := None; commits := 0;
     csv_source := csv_text (map csv_line [required_columns; johnson_row]) |}.








(** A file with one data line, which holds a form feed inside the college. *)
Definition form_feed_line : pystr :=
  str "Michael Jordan,1984,1,CHI,University of" ++ 12%N
  :: str "North Carolina,15,1072,38.3,30.1".

Definition form_feed_world : world :=
  {| players := None; commits := 0;
     csv_source := csv_header ++ newline ++ form_feed_line ++ newline |}.
(** * Properties

    ** Orders *)

Section OrderFacts.
Context {A : Type} (cmp : A -> A -> comparison) `{!Order cmp}.

Lemma cmp_refl a : cmp a a = Eq.
Proof.
  pose proof (cmp_opp cmp a a) as H. destruct (cmp a a); simpl in H; congruence.
Qed.

Lemma cmp_gt_lt a b : cmp a b = Gt <-> cmp b a = Lt.
Proof.
  rewrite (cmp_opp cmp a b). destruct (cmp a b); simpl; split; congruence.
Qed.

Lemma cmp_eq_sym a b : cmp a b = Eq -> cmp b a = Eq.
Proof. intros H. rewrite (cmp_opp cmp a b), H. reflexivity. Qed.

Lemma cmp_eq_cong_r a b c : cmp a b = Eq -> cmp c a = cmp c b.
Proof.
  intros H. rewrite (cmp_opp cmp a c), (cmp_opp cmp b c).
  f_equal. now apply cmp_eq_cong.
Qed.

Lemma cmp_le_trans a b c : cmp a b <> Gt -> cmp b c <> Gt -> cmp a c <> Gt.
Proof.
  intros Hab Hbc Hac. apply cmp_gt_lt in Hac.
  destruct (cmp a b) eqn:E1; try congruence.
  - rewrite (cmp_eq_cong_r c E1) in Hac. apply cmp_gt_lt in Hac. congruence.
  - destruct (cmp b c) eqn:E2; try congruence.
    + pose proof (cmp_eq_cong_r a E2) as H. rewrite E1 in H.
      rewrite (cmp_opp cmp a c), <- H in Hac. discriminate.
    + pose proof (cmp_lt_trans cmp _ _ _ E2 Hac) as H.
      rewrite (cmp_opp cmp a b), E1 in H. discriminate.
Qed.

Lemma cmp_lt_le_trans a b c : cmp a b = Lt -> cmp b c <> Gt -> cmp a c = Lt.
Proof.
  intros Hab Hbc. destruct (cmp b c) eqn:E; try congruence.
  - now rewrite <- (cmp_eq_cong_r a E).
  - eapply cmp_lt_trans; eauto.
Qed.

Lemma cmp_le_lt_trans a b c : cmp a b <> Gt -> cmp b c = Lt -> cmp a c = Lt.
Proof.
  intros Hab Hbc. destruct (cmp a b) eqn:E; try congruence.
  - now rewrite (cmp_eq_cong cmp _ _ c E).
  - eapply cmp_lt_trans; eauto.
Qed.

Lemma cmp_total a b : cmp a b <> Gt \/ cmp b a <> Gt.
Proof.
  rewrite (cmp_opp cmp a b).
  destruct (cmp a b); simpl; [left | left | right]; congruence.
Qed.
End OrderFacts.

Arguments cmp_refl {A} cmp {_} a.
Arguments cmp_gt_lt {A} cmp {_} a b.
Arguments cmp_eq_sym {A} cmp {_} a b _.
Arguments cmp_eq_cong_r {A} cmp {_} a b c _.
Arguments cmp_le_trans {A} cmp {_} a b c _ _.
Arguments cmp_lt_le_trans {A} cmp {_} a b c _ _.
Arguments cmp_le_lt_trans {A} cmp {_} a b c _ _.
Arguments cmp_total {A} cmp {_} a b.

Lemma pystr_eqb_eq a b : pystr_eqb a b = true <-> a = b.
Proof.
  revert b. induction a as [|x a IH]; intros [|y b]; simpl;
    try (split; [discriminate | congruence]); [tauto|].
  rewrite andb_true_iff, N.eqb_eq, IH. split.
  - now intros [-> ->].
  - intros H. injection H as -> ->. auto.
Qed.

Lemma pystr_eqb_refl a : pystr_eqb a a = true.
Proof. now apply pystr_eqb_eq. Qed.

#[export] Instance N_order : Order N.compare.
Proof.
split.
- intros a b. apply N.compare_antisym.
- intros a b c H. apply N.compare_eq in H. now subst.
- intros a b c. rewrite !N.compare_lt_iff. lia.
Qed.

#[export] Instance str_order : Order str_compare.
Proof.
split.
- induction a as [|x a IH]; destruct b as [|y b]; simpl; auto.
  rewrite (N.compare_antisym x y).
  destruct (N.compare x y); simpl; auto.
- induction a as [|x a IH]; destruct b as [|y b]; simpl; try discriminate; auto.
  intros c. destruct (N.compare x y) eqn:E; try discriminate.
  apply N.compare_eq in E. subst y. intros H.
  destruct c as [|z c]; auto.
  destruct (N.compare x z); auto.
- induction a as [|x a IH]; destruct b as [|y b]; destruct c as [|z c];
    simpl; try discriminate; auto.
  destruct (N.compare x y) eqn:E1; try discriminate.
  + apply N.compare_eq in E1. subst y.
    destruct (N.compare x z); auto. apply IH.
  + intros _. destruct (N.compare y z) eqn:E2; try discriminate.
    * apply N.compare_eq in E2. subst z. now rewrite E1.
    * intros _. now rewrite (cmp_lt_trans N.compare _ _ _ E1 E2).
Qed.

#[export] Instance xreal_order : Order xreal_compare.
Proof.
  split.
  - intros [|p|] [|q|]; simpl; auto. symmetry. apply Qcompare_antisym.
  - intros [|p|] [|q|] [|r|]; simpl; try discriminate; auto.
    intros H. apply Qeq_alt in H. now rewrite H.
  - intros [|p|] [|q|] [|r|]; simpl; try discriminate; auto.
    rewrite <- !Qlt_alt. apply Qlt_trans.
Qed.

#[export] Instance value_order : Order value_compare.
Proof.
  split.
  - intros [|i|r|s] [|j|q|t]; unfold value_compare; cbv beta iota; auto;
      first [apply (cmp_opp xreal_compare) | apply (cmp_opp str_compare)].
  - intros [|i|r|s] [|j|q|t] [|k|p|u]; unfold value_compare; cbv beta iota;
      try discriminate; auto;
      first [apply (cmp_eq_cong xreal_compare) | apply (cmp_eq_cong str_compare)].
  - intros [|i|r|s] [|j|q|t] [|k|p|u]; unfold value_compare; cbv beta iota;
      try discriminate; auto;
      first [apply (cmp_lt_trans xreal_compare) | apply (cmp_lt_trans str_compare)].
Qed.

Lemma value_leb_le a b : value_leb a b = true <-> value_le a b.
Proof.
  unfold value_leb, value_le. destruct (value_compare a b); split; congruence.
Qed.

Lemma value_eqb_eqv a b : value_eqb a b = true <-> value_eqv a b.
Proof.
  unfold value_eqb, value_eqv. destruct (value_compare a b); split; congruence.
Qed.

Lemma value_le_null a : value_le Null a.
Proof. destruct a; unfold value_le; simpl; congruence. Qed.


(** ** MAX with a bare column *)

Lemma value_le_null_inv a : value_le a Null -> a = Null.
Proof. destruct a; unfold value_le; simpl; congruence. Qed.

Lemma value_lt_null a : a <> Null -> value_lt Null a.
Proof. destruct a; unfold value_lt; simpl; congruence. Qed.

Lemma value_le_refl a : value_le a a.
Proof. unfold value_le. now rewrite (cmp_refl value_compare). Qed.

Lemma value_le_trans a b c : value_le a b -> value_le b c -> value_le a c.
Proof. apply (cmp_le_trans value_compare). Qed.

Lemma value_lt_le a b : value_lt a b -> value_le a b.
Proof. unfold value_lt, value_le. congruence. Qed.

Lemma value_not_lt_le a b : value_compare a b <> Lt -> value_le b a.
Proof.
  unfold value_le. rewrite (cmp_opp value_compare a b).
  destruct (value_compare a b); simpl; congruence.
Qed.

Lemma select_max_snoc {R : Type} (key : R -> value) (rows : list R) (x : R) :
  select_max key (rows ++ [x]) = max_step key (select_max key rows) x.
Proof. unfold select_max. now rewrite fold_left_app. Qed.

(** The row behind the bare columns is a row with a greatest key; when that
    key is not NULL it is the first such row of the scan, and [MAX] is its
    key. *)
Lemma select_max_spec {R : Type} (key : R -> value) (rows : list R) :
  rows <> [] ->
  exists i r,
    nth_error rows i = Some r /\
    bare (select_max key rows) = Some r /\
    best (select_max key rows) = (if is_null (key r) then None else Some (key r)) /\
    (forall r', In r' rows -> value_le (key r') (key r)) /\
    (key r <> Null ->
     forall j r', (j < i)%nat -> nth_error rows j = Some r' ->
                  value_lt (key r') (key r)).
Proof.
  induction rows as [|x p IH] using rev_ind; [congruence|]. intros _.
  rewrite select_max_snoc.
  destruct p as [|y p'].
  - exists 0%nat, x. simpl. unfold max_step. simpl.
    repeat split.
    + destruct (key x); reflexivity.
    + destruct (key x); reflexivity.
    + intros r' [<-|[]]. apply value_le_refl.
    + intros _ j r' Hj. lia.
  - destruct IH as (i & r & Hi & Hbare & Hbest & Hle & Hfirst); [discriminate|].
    set (p := y :: p') in *.
    assert (Hlen : (i < List.length p)%nat)
      by (apply nth_error_Some; congruence).
    set (P := fun a : max_agg R =>
      exists i0 r0,
        nth_error (p ++ [x]) i0 = Some r0 /\
        bare a = Some r0 /\
        best a = (if is_null (key r0) then None else Some (key r0)) /\
        (forall r', In r' (p ++ [x]) -> value_le (key r') (key r0)) /\
        (key r0 <> Null ->
         forall j r', (j < i0)%nat -> nth_error (p ++ [x]) j = Some r' ->
                      value_lt (key r') (key r0))).
    assert (Hkeep : value_le (key x) (key r) -> P (select_max key p)).
    { intros Hx. exists i, r. repeat split; auto.
      - rewrite nth_error_app1; auto.
      - intros r' Hin. apply in_app_or in Hin. destruct Hin as [Hin|[<-|[]]]; auto.
      - intros Hn j r' Hj Hnth. rewrite nth_error_app1 in Hnth by lia. eauto. }
    assert (Htake :
      (forall r', In r' p -> value_le (key r') (key x)) ->
      (key x <> Null -> forall r', In r' p -> value_lt (key r') (key x)) ->
      P {| best := if is_null (key x) then None else Some (key x);
           bare := Some x |}).
    { intros Hall Hstrict. exists (List.length p), x. repeat split; auto.
      - rewrite nth_error_app2, Nat.sub_diag; auto.
      - intros r' Hin. apply in_app_or in Hin.
        destruct Hin as [Hin|[<-|[]]]; auto. apply value_le_refl.
      - intros Hn j r' Hj Hnth. rewrite nth_error_app1 in Hnth by lia.
        apply Hstrict; auto. eapply nth_error_In; eauto. }
    assert (Hnull : key r = Null -> forall r', In r' p -> key r' = Null).
    { intros Er r' Hin. apply value_le_null_inv. rewrite <- Er. auto. }
    change (P (max_step key (select_max key p) x)).
    unfold max_step. rewrite Hbest.
    clearbody P. clear Hbest Hbare Hfirst Hi.
    destruct (key r) as [|ri|rr|rs] eqn:Er; cbv beta iota delta [is_null].
    1: { (* nothing but NULL so far: the row is loaded *)
      assert (E : (match key x with
                   | Null => {| best := None; bare := Some x |}
                   | _ => {| best := Some (key x); bare := Some x |}
                   end) =
                  {| best := if is_null (key x) then None else Some (key x);
                     bare := Some x |})
        by (destruct (key x); reflexivity).
      destruct (key x) eqn:Ex; rewrite E; apply Htake;
        intros; rewrite (Hnull eq_refl _ ltac:(eassumption));
        try apply value_le_null; apply value_lt_null; assumption. }
    all: destruct (key x) as [|xi|xr|xs] eqn:Ex; cbv beta iota;
      try (apply Hkeep; apply value_le_null).
    all: match goal with
         | |- context [value_compare ?b ?v] =>
             destruct (value_compare b v) eqn:Ec
         end;
      try (apply Hkeep; apply value_not_lt_le; rewrite Ec; discriminate).
    all: cbv beta iota delta [is_null] in Htake.
    all: apply Htake;
         [intros r' Hin; specialize (Hle r' Hin);
          eapply value_le_trans; [exact Hle|]; apply value_lt_le; exact Ec
         |intros Hn r' Hin; specialize (Hle r' Hin);
          eapply (cmp_le_lt_trans value_compare); [exact Hle | exact Ec]].
Qed.

Lemma best_all_null {R : Type} (key : R -> value) (rows : list R) :
  Forall (fun r => key r = Null) rows -> best (select_max key rows) = None.
Proof.
  induction rows as [|x rows IH] using rev_ind; intros H; [reflexivity|].
  apply Forall_app in H as [Hrows Hx]. apply Forall_inv in Hx.
  rewrite select_max_snoc. unfold max_step. now rewrite Hx, (IH Hrows).
Qed.

(** Without a key that is not NULL the bare columns are those of the row
    scanned last. *)
Lemma select_max_all_null {R : Type} (key : R -> value) (rows : list R) (x : R) :
  Forall (fun r => key r = Null) (rows ++ [x]) ->
  bare (select_max key (rows ++ [x])) = Some x.
Proof.
  intros H. apply Forall_app in H as [Hrows Hx]. apply Forall_inv in Hx.
  rewrite select_max_snoc. unfold max_step.
  now rewrite Hx, (best_all_null key Hrows).
Qed.

(** ** ORDER BY *)

Section SortFacts.
Context {R : Type} (le : R -> R -> bool).

Lemma insert_by_perm x l : Permutation (insert_by le x l) (x :: l).
Proof.
  induction l as [|y l IH]; simpl; auto.
  destruct (le x y); auto.
  rewrite IH. apply perm_swap.
Qed.

Lemma sort_by_perm l : Permutation (sort_by le l) l.
Proof.
  induction l as [|x l IH]; simpl; auto.
  rewrite insert_by_perm. now constructor.
Qed.

Lemma sort_by_length l : List.length (sort_by le l) = List.length l.
Proof. apply Permutation_length, sort_by_perm. Qed.

Hypothesis le_total : forall a b, le a b = true \/ le b a = true.
Hypothesis le_trans : forall a b c, le a b = true -> le b c = true -> le a c = true.

Lemma insert_by_sorted x l :
  StronglySorted (fun a b => le a b = true) l ->
  StronglySorted (fun a b => le a b = true) (insert_by le x l).
Proof.
  induction 1 as [|y l Hs IH Hall]; simpl.
  - repeat constructor.
  - destruct (le x y) eqn:Exy.
    + constructor; [now constructor|].
      constructor; auto.
      rewrite Forall_forall in *. intros z Hz. eauto.
    + constructor; auto.
      rewrite Forall_forall in *. intros z Hz.
      apply (Permutation_in _ (insert_by_perm x l)) in Hz.
      destruct Hz as [<-|Hz]; auto.
      destruct (le_total x y); congruence.
Qed.

Lemma sort_by_sorted l : StronglySorted (fun a b => le a b = true) (sort_by le l).
Proof.
  induction l; simpl; [constructor | now apply insert_by_sorted].
Qed.
End SortFacts.

Lemma asc_total {R : Type} (key : R -> value) a b :
  asc key a b = true \/ asc key b a = true.
Proof.
  unfold asc. rewrite !value_leb_le. apply (cmp_total value_compare).
Qed.

Lemma asc_trans {R : Type} (key : R -> value) a b c :
  asc key a b = true -> asc key b c = true -> asc key a c = true.
Proof. unfold asc. rewrite !value_leb_le. apply value_le_trans. Qed.

Lemma desc_total {R : Type} (key : R -> value) a b :
  desc key a b = true \/ desc key b a = true.
Proof.
  unfold desc. rewrite !value_leb_le. apply (cmp_total value_compare).
Qed.

Lemma desc_trans {R : Type} (key : R -> value) a b c :
  desc key a b = true -> desc key b c = true -> desc key a c = true.
Proof.
  unfold desc. rewrite !value_leb_le. intros H1 H2.
  eapply value_le_trans; eauto.
Qed.

Lemma StronglySorted_weaken {A : Type} (P Q : A -> A -> Prop) (l : list A) :
  (forall a b, P a b -> Q a b) -> StronglySorted P l -> StronglySorted Q l.
Proof.
  intros HPQ. induction 1 as [|a l Hs IH Hall]; constructor; auto.
  eapply Forall_impl; [|exact Hall]. auto.
Qed.

Lemma sort_asc_sorted {R : Type} (key : R -> value) (l : list R) :
  StronglySorted (fun a b => value_le (key a) (key b)) (sort_by (asc key) l).
Proof.
  eapply StronglySorted_weaken;
    [|apply sort_by_sorted; [apply asc_total | apply asc_trans]].
  intros a b H. now apply value_leb_le.
Qed.

Lemma sort_desc_sorted {R : Type} (key : R -> value) (l : list R) :
  StronglySorted (fun a b => value_le (key b) (key a)) (sort_by (desc key) l).
Proof.
  eapply StronglySorted_weaken;
    [|apply sort_by_sorted; [apply desc_total | apply desc_trans]].
  intros a b H. now apply value_leb_le.
Qed.

(** ** GROUP BY *)

Lemma value_eqb_refl v : value_eqb v v = true.
Proof. unfold value_eqb. now rewrite (cmp_refl value_compare). Qed.

Lemma value_eqb_lt a b : value_lt a b -> value_eqb a b = false.
Proof. unfold value_lt, value_eqb. now intros ->. Qed.

Lemma value_eqv_eqb_l a b u : value_eqv a b -> value_eqb u a = value_eqb u b.
Proof.
  unfold value_eqv, value_eqb. intros H.
  now rewrite (cmp_eq_cong_r value_compare a b u H).
Qed.

Lemma value_lt_eqv_l a b c : value_eqv a b -> value_lt b c -> value_lt a c.
Proof.
  unfold value_eqv, value_lt. intros H.
  now rewrite (cmp_eq_cong value_compare a b c H).
Qed.

Lemma value_lt_eqv_r a b c : value_lt a b -> value_eqv b c -> value_lt a c.
Proof.
  unfold value_eqv, value_lt. intros H1 H2.
  now rewrite <- (cmp_eq_cong_r value_compare b c a H2).
Qed.

Lemma value_lt_trans a b c : value_lt a b -> value_lt b c -> value_lt a c.
Proof. apply (cmp_lt_trans value_compare). Qed.

Lemma value_eqv_le a b : value_eqv a b -> value_le a b.
Proof. unfold value_eqv, value_le. congruence. Qed.

Lemma value_eqv_sym a b : value_eqv a b -> value_eqv b a.
Proof. apply (cmp_eq_sym value_compare). Qed.

Lemma value_eqv_trans a b c : value_eqv a b -> value_eqv b c -> value_eqv a c.
Proof.
  unfold value_eqv. intros H1 H2.
  now rewrite (cmp_eq_cong value_compare a b c H1).
Qed.

Lemma occurrences_cons v u vs :
  occurrences v (u :: vs) =
  ((if value_eqb u v && negb (is_null u) then 1 else 0) + occurrences v vs)%Z.
Proof.
  unfold occurrences. simpl.
  destruct (value_eqb u v && negb (is_null u)); simpl List.length; lia.
Qed.

Lemma occurrences_eqv a b vs :
  value_eqv a b -> occurrences a vs = occurrences b vs.
Proof.
  intros H. unfold occurrences. do 2 f_equal.
  apply filter_ext. intros u. now rewrite (value_eqv_eqb_l u H).
Qed.

Lemma occurrences_above v vs :
  (forall u, In u vs -> value_lt v u) -> occurrences v vs = 0%Z.
Proof.
  induction vs as [|u vs IH]; intros H; [reflexivity|].
  rewrite occurrences_cons, IH by (intros; apply H; now right).
  assert (E : value_eqb u v = false).
  { unfold value_eqb. rewrite (cmp_opp value_compare v u).
    rewrite (H u (or_introl eq_refl)). reflexivity. }
  now rewrite E.
Qed.

Lemma occurrences_perm v vs vs' :
  Permutation vs vs' -> occurrences v vs = occurrences v vs'.
Proof.
  intros H. unfold occurrences. f_equal.
  apply Permutation_length.
  induction H; simpl; auto.
  - destruct (value_eqb x v && negb (is_null x)); auto.
  - destruct (value_eqb x v && negb (is_null x));
      destruct (value_eqb y v && negb (is_null y)); auto. apply perm_swap.
  - etransitivity; eauto.
Qed.

Lemma occurrences_nonneg v vs : (0 <= occurrences v vs)%Z.
Proof. unfold occurrences. lia. Qed.

Lemma occurrences_pos v vs :
  In v vs -> v <> Null -> (0 < occurrences v vs)%Z.
Proof.
  induction vs as [|u vs IH]; [intros []|];
    intros [<-|Hin] Hn; rewrite occurrences_cons.
  - rewrite value_eqb_refl. pose proof (occurrences_nonneg u vs).
    destruct u; cbn [is_null negb andb]; try congruence; lia.
  - specialize (IH Hin Hn).
    destruct (value_eqb u v && negb (is_null u)); lia.
Qed.

Lemma group_runs_head k rest :
  exists n gs, group_runs (k :: rest) = (k, n) :: gs.
Proof.
  simpl. destruct (group_runs rest) as [|[k' n] gs]; [eauto|].
  destruct (value_eqb k k'); eauto.
Qed.

(** On an ascending run the groups come with strictly ascending keys, each
    key is one of the values and carries its number of occurrences, and
    every value falls into a group. *)
Lemma group_runs_spec ks :
  StronglySorted value_le ks ->
  StronglySorted (fun g h => value_lt (fst g) (fst h)) (group_runs ks) /\
  (forall g, In g (group_runs ks) ->
             In (fst g) ks /\ snd g = occurrences (fst g) ks) /\
  (forall v, In v ks -> exists g, In g (group_runs ks) /\ value_eqv v (fst g)).
Proof.
  induction 1 as [|k rest Hs IH Hall].
  - simpl. split; [constructor|]. split; intros ? [].
  - destruct IH as (G1 & G2 & G3). rewrite Forall_forall in Hall.
    assert (Hc : ((if value_eqb k k && negb (is_null k) then 1 else 0)
                  = (if is_null k then 0 else 1))%Z)
      by (rewrite value_eqb_refl; destruct (is_null k); reflexivity).
    destruct rest as [|k1 rest1].
    { simpl. split; [repeat constructor|]. split.
      - intros g [<-|[]]. split; [now left|]. simpl.
        rewrite occurrences_cons, Hc. unfold occurrences. simpl. lia.
      - intros v [<-|[]]. eexists. split; [now left|].
        apply (cmp_refl value_compare). }
    set (rest := k1 :: rest1) in *.
    destruct (group_runs_head k1 rest1) as (n1 & gs1 & Egs).
    fold rest in Egs.
    assert (Hk1 : In (k1, n1) (group_runs rest)) by (rewrite Egs; now left).
    assert (Hn1 : n1 = occurrences k1 rest) by (apply (G2 _ Hk1)).
    assert (Hgs1 : forall h, In h gs1 -> value_lt k1 (fst h)).
    { rewrite Egs in G1. apply StronglySorted_inv in G1.
      destruct G1 as [_ G1]. rewrite Forall_forall in G1. exact G1. }
    assert (Hs1 : StronglySorted (fun g h => value_lt (fst g) (fst h)) gs1).
    { rewrite Egs in G1. now apply StronglySorted_inv in G1. }
    assert (Hle : value_le k k1) by (apply Hall; now left).
    change (group_runs (k :: rest))
      with (let c := if is_null k then 0%Z else 1%Z in
            match group_runs rest with
            | (k', n) :: gs =>
                if value_eqb k k' then (k, (c + n)%Z) :: gs
                else (k, c) :: (k', n) :: gs
            | [] => [(k, c)]
            end).
    cbv zeta. rewrite Egs.
    destruct (value_eqb k k1) eqn:Eq.
    + (* [k] joins the group of [k1] *)
      apply value_eqb_eqv in Eq.
      assert (Hlt : forall h, In h gs1 -> value_lt k (fst h))
        by (intros h Hh; eapply value_lt_eqv_l; eauto).
      split; [|split].
      * constructor; auto. now apply Forall_forall.
      * intros g [<-|Hg]; simpl.
        -- split; [now left|].
           rewrite occurrences_cons, Hc, Hn1.
           now rewrite (occurrences_eqv rest Eq).
        -- split; [right; apply G2; rewrite Egs; now right|].
           rewrite occurrences_cons, (value_eqb_lt (Hlt _ Hg)). simpl.
           apply G2. rewrite Egs. now right.
      * intros v [<-|Hv].
        -- eexists. split; [now left|]. apply (cmp_refl value_compare).
        -- destruct (G3 v Hv) as (g & Hg & Hvg). rewrite Egs in Hg.
           destruct Hg as [<-|Hg].
           ++ eexists. split; [now left|]. simpl in *.
              eapply value_eqv_trans; [exact Hvg|]. now apply value_eqv_sym.
           ++ exists g. split; [now right | exact Hvg].
    + (* [k] opens a group of its own *)
      assert (Hkk1 : value_lt k k1).
      { unfold value_le in Hle. unfold value_eqb in Eq. unfold value_lt.
        destruct (value_compare k k1); congruence. }
      assert (Hlt : forall h, In h (group_runs rest) -> value_lt k (fst h)).
      { rewrite Egs. intros h [<-|Hh]; auto.
        eapply value_lt_trans; eauto. }
      assert (Hrest : forall u, In u rest -> value_lt k u).
      { intros u Hu. destruct (G3 u Hu) as (g & Hg & Hug).
        eapply value_lt_eqv_r; [apply (Hlt _ Hg)|]. now apply value_eqv_sym. }
      rewrite <- Egs.
      split; [|split].
      * constructor; auto. now apply Forall_forall.
      * intros g [<-|Hg]; simpl.
        -- split; [now left|].
           rewrite occurrences_cons, Hc, (@occurrences_above k rest Hrest). lia.
        -- split; [right; now apply G2|].
           rewrite occurrences_cons, (value_eqb_lt (Hlt _ Hg)). simpl.
           now apply G2.
      * intros v [<-|Hv].
        -- eexists. split; [now left|]. apply (cmp_refl value_compare).
        -- destruct (G3 v Hv) as (g & Hg & Hvg).
           exists g. split; [now right | exact Hvg].
Qed.

(** * The claims *)

Lemma value_compare_integer a b :
  value_compare (Integer a) (Integer b) = Z.compare a b.
Proof.
  unfold value_compare, xval, xreal_compare, Qcompare. simpl.
  now rewrite !Z.mul_1_r.
Qed.

Lemma StronglySorted_nth {A : Type} (P : A -> A -> Prop) (l : list A) :
  StronglySorted P l ->
  forall i j a b, (i < j)%nat ->
    nth_error l i = Some a -> nth_error l j = Some b -> P a b.
Proof.
  induction 1 as [|x l Hs IH Hall]; intros i j a b Hij Hi Hj.
  - destruct i; discriminate.
  - destruct j as [|j]; [lia|]. simpl in Hj.
    destruct i as [|i]; simpl in Hi.
    + injection Hi as <-. rewrite Forall_forall in Hall.
      apply Hall. eapply nth_error_In; eauto.
    + apply (IH i j); auto. lia.
Qed.

Lemma value_compare_number a b :
  points_cell a -> points_cell b -> a <> Null -> b <> Null ->
  value_compare a b = xreal_compare (xval a) (xval b).
Proof.
  destruct a, b; cbn [points_cell]; intros; try contradiction; try congruence;
    reflexivity.
Qed.

(** C1, as the claim states it, fails on a table in which no row has an
    [avg_points]: both rows share the greatest value there is, NULL, and the
    query returns the name of the second, not of the first. *)
Lemma player_with_max_points_per_game_not_first_on_null :
  player_with_max_points_per_game null_points_world
    = (Ok (Text (str "Sam Bowie")), null_points_world) /\
  spec_max_points_player (rows_of null_points_world) = Text (str "Len Bias") /\
  fst (player_with_max_points_per_game null_points_world)
    <> Ok (spec_max_points_player (rows_of null_points_world)).
Proof.
  split; [|split].
  - vm_compute. reflexivity.
  - vm_compute. reflexivity.
  - vm_compute. discriminate.
Qed.

(** C1, as the code has it.  On a table with at least one row whose
    [avg_points] cells hold numbers or NULL, [player_with_max_points_per_game]
    returns the name of a row of the table.  When some [avg_points] is a
    number, the row returned holds a number that no number of the table
    exceeds, and every row before it in insertion order holds NULL or a
    strictly smaller number: among the rows that share the greatest number
    the first one inserted is returned.  When every [avg_points] is NULL,
    the row returned is the last one.  Numbers are compared by their exact
    values. *)
Theorem player_with_max_points_per_game_first_max (w : world) (t : table) :
  players w = Some t ->
  t <> [] ->
  Forall (fun r => points_cell (avg_points r)) t ->
  exists i r,
    nth_error t i = Some r /\
    player_with_max_points_per_game w = (Ok (name r), w) /\
    ((exists r', In r' t /\ avg_points r' <> Null) ->
     avg_points r <> Null /\
     (forall r', In r' t -> avg_points r' <> Null ->
        xreal_compare (xval (avg_points r')) (xval (avg_points r)) <> Gt) /\
     (forall j r', (j < i)%nat -> nth_error t j = Some r' ->
        avg_points r' = Null \/
        xreal_compare (xval (avg_points r')) (xval (avg_points r)) = Lt)) /\
    ((forall r', In r' t -> avg_points r' = Null) ->
     S i = List.length t).
Proof.
  intros Hw Ht Hcells.
  assert (Hrun : forall r,
    bare (select_max avg_points t) = Some r ->
    player_with_max_points_per_game w = (Ok (name r), w)).
  { intros r Hbare.
    unfold player_with_max_points_per_game, execute, bare_column.
    now rewrite Hw, Hbare. }
  assert (Hdec : forall r : row, {avg_points r = Null} + {avg_points r <> Null}).
  { intros r. destruct (avg_points r); [now left | right; discriminate ..]. }
  destruct (Forall_dec (fun r => avg_points r = Null) Hdec t) as [Hnull|Hsome].
  - (* nothing but NULL: the last row *)
    destruct (exists_last Ht) as (p & x & ->).
    exists (List.length p), x.
    split; [now rewrite nth_error_app2, Nat.sub_diag|].
    split; [apply Hrun; now apply select_max_all_null|].
    split.
    + intros (r' & Hin & Hnn). rewrite Forall_forall in Hnull.
      now rewrite (Hnull r' Hin) in Hnn.
    + intros _. rewrite length_app. cbn [List.length]. lia.
  - destruct (select_max_spec avg_points Ht)
      as (i & r & Hi & Hbare & _ & Hle & Hfirst).
    exists i, r. split; [exact Hi|]. split; [now apply Hrun|].
    rewrite Forall_forall in Hcells.
    assert (Hr : In r t) by (eapply nth_error_In; eauto).
    split.
    + intros (r0 & Hin0 & Hnn0).
      assert (Hnn : avg_points r <> Null).
      { intros E. specialize (Hle r0 Hin0). rewrite E in Hle.
        now apply value_le_null_inv in Hle. }
      split; [exact Hnn|]. split.
      * intros r' Hin' Hnn'.
        pose proof (Hle r' Hin') as H. unfold value_le in H.
        rewrite (@value_compare_number (avg_points r') (avg_points r)
                   (Hcells r' Hin') (Hcells r Hr) Hnn' Hnn) in H.
        exact H.
      * intros j r' Hj Hnth.
        assert (Hin' : In r' t) by (eapply nth_error_In; eauto).
        destruct (Hdec r') as [Hn'|Hnn']; [now left | right].
        pose proof (Hfirst Hnn j r' Hj Hnth) as H. unfold value_lt in H.
        rewrite (@value_compare_number (avg_points r') (avg_points r)
                   (Hcells r' Hin') (Hcells r Hr) Hnn' Hnn) in H.
        exact H.
    + intros Hall. exfalso. apply Hsome, Forall_forall. exact Hall.
Qed.

Lemma player_with_max_points_per_game_first_max_witness :
  exists i r,
    nth_error veterans_table i = Some r /\
    player_with_max_points_per_game veterans_world
      = (Ok (name r), veterans_world) /\
    ((exists r', In r' veterans_table /\ avg_points r' <> Null) ->
     avg_points r <> Null /\
     (forall r', In r' veterans_table -> avg_points r' <> Null ->
        xreal_compare (xval (avg_points r')) (xval (avg_points r)) <> Gt) /\
     (forall j r', (j < i)%nat -> nth_error veterans_table j = Some r' ->
        avg_points r' = Null \/
        xreal_compare (xval (avg_points r')) (xval (avg_points r)) = Lt)) /\
    ((forall r', In r' veterans_table -> avg_points r' = Null) ->
     S i = List.length veterans_table).
Proof.
  apply (@player_with_max_points_per_game_first_max veterans_world
           veterans_table).
  - reflexivity.
  - discriminate.
  - repeat (constructor; [reflexivity|]). constructor.
Defined.

(** C3. On a table with at least one row, [year_with_most_drafts] returns a
    [year] of the table that occurs in at least as many rows as any other
    year does, and that is the smallest of the years that occur that often.
    NULL is no year: it is returned only when every row has a NULL year. *)
Theorem year_with_most_drafts_most_frequent (w : world) (t : table) :
  players w = Some t ->
  t <> [] ->
  exists y,
    year_with_most_drafts w = (Ok y, w) /\
    In y (map year t) /\
    (forall v, In v (map year t) -> v <> Null ->
       y <> Null /\
       (occurrences v (map year t) <= occurrences y (map year t))%Z /\
       (occurrences v (map year t) = occurrences y (map year t) ->
        value_le y v)).
Proof.
  intros Hw Ht.
  set (years := map year t).
  set (ks := sort_by (asc (fun v : value => v)) years).
  assert (Hperm : Permutation ks years) by apply sort_by_perm.
  assert (Hsorted : StronglySorted value_le ks)
    by apply (sort_asc_sorted (fun v : value => v)).
  destruct (group_runs_spec Hsorted) as (G1 & G2 & G3).
  assert (Hgs : group_runs ks <> []).
  { destruct ks as [|k ks'] eqn:Eks.
    - apply Permutation_nil in Hperm. subst years.
      destruct t; [congruence | discriminate].
    - destruct (group_runs_head k ks') as (n & gs & ->). discriminate. }
  destruct (select_max_spec (fun g : value * Z => Integer (snd g)) Hgs)
    as (i & g & Hi & Hbare & _ & Hle & Hfirst).
  assert (Hocc : forall v, occurrences v years = occurrences v ks)
    by (intros v; symmetry; now apply occurrences_perm).
  assert (Hg : In g (group_runs ks)) by (eapply nth_error_In; eauto).
  destruct (G2 g Hg) as (Hgin & Hgn).
  exists (fst g). split; [|split].
  - unfold year_with_most_drafts, execute, bare_column, group_by_count.
    rewrite Hw. fold years. fold ks. now rewrite Hbare.
  - eapply Permutation_in; eauto.
  - intros v Hv Hn.
    assert (Hvks : In v ks) by (eapply Permutation_in; [symmetry|]; eauto).
    destruct (G3 v Hvks) as (g' & Hg' & Hvg').
    destruct (G2 g' Hg') as (_ & Hg'n).
    assert (Hov : occurrences v years = snd g').
    { rewrite Hocc, Hg'n. now apply occurrences_eqv. }
    assert (Hoy : occurrences (fst g) years = snd g) by (now rewrite Hocc).
    assert (Hmax : (snd g' <= snd g)%Z).
    { specialize (Hle g' Hg'). unfold value_le in Hle.
      rewrite value_compare_integer in Hle. now apply Z.compare_le_iff. }
    assert (Hpos : (0 < occurrences v years)%Z)
      by (apply occurrences_pos; auto).
    split; [|split].
    + intros Ey. rewrite Ey in Hoy.
      assert (occurrences Null years = 0%Z).
      { apply Z.le_antisymm; [|apply occurrences_nonneg].
        unfold occurrences.
        rewrite (@filter_ext _ _ (fun _ => false)), filter_false by
            (intros u; unfold value_eqb; destruct u; reflexivity).
        simpl. lia. }
      lia.
    + lia.
    + intros Etie.
      destruct (In_nth_error _ _ Hg') as (j & Hj).
      destruct (Nat.lt_trichotomy j i) as [Hji|[->|Hij]].
      * assert (value_lt (Integer (snd g')) (Integer (snd g)))
          by (eapply Hfirst; eauto; discriminate).
        unfold value_lt in H. rewrite value_compare_integer in H.
        change (snd g' < snd g)%Z in H. lia.
      * rewrite Hi in Hj. injection Hj as <-.
        apply value_eqv_le. now apply value_eqv_sym.
      * apply value_lt_le. eapply value_lt_eqv_r.
        -- apply (StronglySorted_nth G1 Hij Hi Hj).
        -- now apply value_eqv_sym.
Qed.

Lemma year_with_most_drafts_most_frequent_witness :
  exists y,
    year_with_most_drafts sample_world = (Ok y, sample_world) /\
    In y (map year sample_table) /\
    (forall v, In v (map year sample_table) -> v <> Null ->
       y <> Null /\
       (occurrences v (map year sample_table)
        <= occurrences y (map year sample_table))%Z /\
       (occurrences v (map year sample_table)
        = occurrences y (map year sample_table) ->
        value_le y v)).
Proof.
  apply (@year_with_most_drafts_most_frequent sample_world sample_table).
  - reflexivity.
  - discriminate.
Defined.

Lemma insert_by_map {A B : Type} (f : A -> B) (le : B -> B -> bool) x l :
  insert_by le (f x) (map f l) =
  map f (insert_by (fun a b => le (f a) (f b)) x l).
Proof.
  induction l as [|y l IH]; simpl; auto.
  destruct (le (f x) (f y)); simpl; congruence.
Qed.

Lemma sort_by_map {A B : Type} (f : A -> B) (le : B -> B -> bool) l :
  sort_by le (map f l) = map f (sort_by (fun a b => le (f a) (f b)) l).
Proof.
  induction l as [|x l IH]; simpl; auto.
  now rewrite IH, insert_by_map.
Qed.

Lemma StronglySorted_app_inv {A : Type} (P : A -> A -> Prop) (l1 l2 : list A) :
  StronglySorted P (l1 ++ l2) ->
  forall a b, In a l1 -> In b l2 -> P a b.
Proof.
  induction l1 as [|x l1 IH]; simpl; intros Hs a b Ha Hb; [contradiction|].
  apply StronglySorted_inv in Hs. destruct Hs as [Hs Hall].
  destruct Ha as [<-|Ha]; [|now apply IH].
  rewrite Forall_forall in Hall. apply Hall, in_or_app. now right.
Qed.

Lemma StronglySorted_map {A B : Type} (f : A -> B) (P : B -> B -> Prop) l :
  StronglySorted (fun a b => P (f a) (f b)) l -> StronglySorted P (map f l).
Proof.
  induction 1 as [|x l Hs IH Hall]; simpl; constructor; auto.
  rewrite Forall_forall in *. intros y Hy.
  apply in_map_iff in Hy. destruct Hy as (z & <- & Hz). auto.
Qed.

Lemma sql_gt_integer a b :
  is_true (sql_gt (Integer a) (Integer b)) = (b <? a)%Z.
Proof.
  unfold sql_gt, is_true. rewrite value_compare_integer.
  rewrite Z.ltb_compare, (Z.compare_antisym a b).
  destruct (a ?= b)%Z; reflexivity.
Qed.

Lemma sql_div_integer E g a :
  (10 < a)%Z -> sql_div E (Integer g) (Integer a) = Integer (Z.quot g a).
Proof.
  intros Ha. unfold sql_div. simpl numeric_type. cbv beta iota.
  destruct (Z.eqb_spec a 0); [lia|].
  destruct (Z.eqb_spec a (-1)); [lia|]. reflexivity.
Qed.

(** C2, as the code has it.  [most_games_per_year_for_veterans] takes no
    parameters.  Of the rows with [active > 10] (for an integer cell: more
    than ten) it keeps six, or all when there are fewer, such that no row left
    out has a greater [games/active] than a row kept; the quotient of two
    integer cells is the integer quotient, truncated.  It returns the names
    of the rows kept, in ascending order. *)
Theorem most_games_per_year_for_veterans_top6 (E : engine) (w : world) (t : table) :
  players w = Some t ->
  let veterans := filter (fun r => is_true (sql_gt (active r) (Integer 10))) t in
  (forall r a, active r = Integer a -> (In r veterans <-> In r t /\ (10 < a)%Z)) /\
  (forall r g a, games r = Integer g -> active r = Integer a -> (10 < a)%Z ->
     sql_div E (games r) (active r) = Integer (Z.quot g a)) /\
  exists top rest result,
    Permutation (top ++ rest) veterans /\
    List.length top = Nat.min 6 (List.length veterans) /\
    (forall a b, In a top -> In b rest ->
       value_le (sql_div E (games b) (active b)) (sql_div E (games a) (active a))) /\
    most_games_per_year_for_veterans E w = (Ok result, w) /\
    Permutation result (map name top) /\
    StronglySorted value_le result.
Proof.
  intros Hw veterans.
  split; [|split].
  - intros r a Ha. unfold veterans. rewrite filter_In, Ha, sql_gt_integer.
    now rewrite Z.ltb_lt.
  - intros r g a -> -> Ha. now apply sql_div_integer.
  - set (ratio := fun r : row => sql_div E (games r) (active r)).
    set (ranked := sort_by (fun a b => desc snd (name a, ratio a) (name b, ratio b))
                     veterans).
    assert (Hranked : StronglySorted (fun a b => value_le (ratio b) (ratio a)) ranked)
      by apply (sort_desc_sorted ratio).
    exists (firstn 6 ranked), (skipn 6 ranked).
    exists (map fst (sort_by (asc fst)
                       (map (fun r => (name r, ratio r)) (firstn 6 ranked)))).
    split; [|split; [|split; [|split; [|split]]]].
    + rewrite firstn_skipn. apply sort_by_perm.
    + rewrite length_firstn. unfold ranked. now rewrite sort_by_length.
    + intros a b Ha Hb.
      apply (@StronglySorted_app_inv _ (fun a b => value_le (ratio b) (ratio a))
               (firstn 6 ranked) (skipn 6 ranked)); auto.
      now rewrite firstn_skipn.
    + unfold most_games_per_year_for_veterans, execute, veterans_subquery.
      rewrite Hw. fold veterans.
      change (fun r : row => (name r, sql_div E (games r) (active r)))
        with (fun r : row => (name r, ratio r)).
      now rewrite sort_by_map, firstn_map.
    + rewrite (Permutation_map fst (sort_by_perm _ _)), map_map. simpl.
      reflexivity.
    + apply StronglySorted_map, sort_asc_sorted.
Qed.

Lemma most_games_per_year_for_veterans_top6_witness :
  let veterans :=
    filter (fun r => is_true (sql_gt (active r) (Integer 10))) veterans_table in
  (forall r a, active r = Integer a ->
     (In r veterans <-> In r veterans_table /\ (10 < a)%Z)) /\
  (forall r g a, games r = Integer g -> active r = Integer a -> (10 < a)%Z ->
     sql_div plain_engine (games r) (active r) = Integer (Z.quot g a)) /\
  exists top rest result,
    Permutation (top ++ rest) veterans /\
    List.length top = Nat.min 6 (List.length veterans) /\
    (forall a b, In a top -> In b rest ->
       value_le (sql_div plain_engine (games b) (active b))
                (sql_div plain_engine (games a) (active a))) /\
    most_games_per_year_for_veterans plain_engine veterans_world
      = (Ok result, veterans_world) /\
    Permutation result (map name top) /\
    StronglySorted value_le result.
Proof.
  apply (@most_games_per_year_for_veterans_top6 plain_engine veterans_world
           veterans_table).
  reflexivity.
Defined.

(** C2, as the claim states it, fails at threshold 10 and limit 6: two rows
    whose integer ratio ties with the rows kept have the greater real ratio,
    and the query keeps the rows inserted first instead. *)
Lemma most_games_per_year_for_veterans_not_real_division :
  most_games_per_year_for_veterans plain_engine veterans_world
    = (Ok (names ["A"; "B"; "C"; "D"; "Xa"; "Ya"]%string), veterans_world) /\
  spec_top_veterans plain_engine 10 6 veterans_table
    = names ["A"; "B"; "C"; "D"; "Ya"; "Yb"]%string /\
  fst (most_games_per_year_for_veterans plain_engine veterans_world)
    <> Ok (spec_top_veterans plain_engine 10 6 veterans_table).
Proof.
  split; [|split].
  - vm_compute. reflexivity.
  - vm_compute. reflexivity.
  - vm_compute. discriminate.
Qed.

(** ** LIKE *)

















(** C4, at a table whose one player has the college [duke university]:
    no college is exactly [Duke University], and the query counts one. *)
Theorem number_of_players_from_duke_ignores_case :
  count_rows (college_is (str "Duke University")) lowercase_duke_table = 0%Z /\
  number_of_players_from_duke plain_engine lowercase_duke_world
    = (Ok 1%Z, lowercase_duke_world).
Proof.
  split; vm_compute; reflexivity.
Qed.

(** ** Effects on the world *)

(** C8, at the empty table: the count query returns 0 and raises nothing. *)
Lemma number_of_players_from_duke_on_empty_table :
  number_of_players_from_duke plain_engine
    {| players := Some []; commits := 0; csv_source := [] |}
  = (Ok 0%Z, {| players := Some []; commits := 0; csv_source := [] |}).
Proof. reflexivity. Qed.

(** C8, as the code has it.  While the table does not exist every query
    raises sqlite3's [OperationalError].  On the empty table only
    [percentage_of_players_first_year] raises, and what it raises is
    [ZeroDivisionError]; the other queries return [None], [0], [None],
    [None] and the empty list. *)
Theorem queries_on_missing_or_empty_table (E : engine) (c : nat) (s : pystr) :
  let missing := {| players := None; commits := c; csv_source := s |} in
  let empty := {| players := Some []; commits := c; csv_source := s |} in
  (player_with_max_points_per_game missing = (Raise OperationalError, missing) /\
   number_of_players_from_duke E missing = (Raise OperationalError, missing) /\
   percentage_of_players_first_year E missing = (Raise OperationalError, missing) /\
   avg_years_active_players_stanford E missing = (Raise OperationalError, missing) /\
   year_with_most_drafts missing = (Raise OperationalError, missing) /\
   most_games_per_year_for_veterans E missing = (Raise OperationalError, missing)) /\
  (player_with_max_points_per_game empty = (Ok Null, empty) /\
   number_of_players_from_duke E empty = (Ok 0%Z, empty) /\
   percentage_of_players_first_year E empty = (Raise ZeroDivisionError, empty) /\
   avg_years_active_players_stanford E empty = (Ok Null, empty) /\
   year_with_most_drafts empty = (Ok Null, empty) /\
   most_games_per_year_for_veterans E empty = (Ok [], empty)).
Proof.
  intros missing empty. repeat split; reflexivity.
Qed.

(** C9. [import_to_db] with an argument that is not [None] returns normally,
    leaves the table with the rows it had (creating it empty when it did not
    exist), and does not commit. *)
Theorem import_to_db_with_players_inserts_nothing
  (E : engine) (P : Type) (p : P) (w : world) :
  let rows := match players w with Some t => t | None => [] end in
  import_to_db E (Some p) w =
    (Ok tt, {| players := Some rows; commits := commits w;
               csv_source := csv_source w |}).
Proof.
  unfold import_to_db, bind, create_players_table, ret.
  destruct w as [[t|] c s]; reflexivity.
Qed.

(** C10. None of the six query functions changes the world, whatever they
    return or raise: the table after the call is the table before it. *)
Theorem queries_leave_the_table_unchanged (E : engine) (w : world) :
  snd (player_with_max_points_per_game w) = w /\
  snd (number_of_players_from_duke E w) = w /\
  snd (percentage_of_players_first_year E w) = w /\
  snd (avg_years_active_players_stanford E w) = w /\
  snd (year_with_most_drafts w) = w /\
  snd (most_games_per_year_for_veterans E w) = w.
Proof.
  unfold player_with_max_points_per_game, number_of_players_from_duke,
    percentage_of_players_first_year, avg_years_active_players_stanford,
    year_with_most_drafts, most_games_per_year_for_veterans,
    _total_records, truediv, bind, execute, raise, ret.
  destruct w as [[t|] c s]; cbn [players]; cbv beta iota;
    repeat split; try reflexivity.
  destruct (_ =? 0)%Z; reflexivity.
Qed.

(** ** Lines, rows and records *)

Lemma is_newline_boundary c : is_newline c = true -> is_line_boundary c = true.
Proof.
  unfold is_newline, is_line_boundary. rewrite orb_true_iff, !N.eqb_eq.
  intros [->| ->]; reflexivity.
Qed.

Lemma splitlines_from_no_boundary n :
  forall s cur line,
    (List.length s <= n)%nat ->
    Forall (fun c => is_line_boundary c = false) cur ->
    In line (splitlines_from cur s) ->
    Forall (fun c => is_line_boundary c = false) line.
Proof.
  induction n as [|n IH]; intros s cur line Hlen Hcur Hin.
  - destruct s; [|simpl in Hlen; lia]. simpl in Hin.
    destruct cur; [contradiction|]. destruct Hin as [<-|[]].
    now apply Forall_rev.
  - destruct s as [|c rest]; simpl in Hin.
    + destruct cur; [contradiction|]. destruct Hin as [<-|[]].
      now apply Forall_rev.
    + simpl in Hlen. destruct (is_line_boundary c) eqn:Ec.
      * destruct Hin as [<-|Hin]; [now apply Forall_rev|].
        destruct rest as [|d rest']; [contradiction|].
        simpl in Hlen.
        destruct ((c =? 13) && (d =? 10))%N;
          apply (IH _ [] line) in Hin; auto; simpl; lia.
      * apply (IH rest (c :: cur) line); auto; lia.
Qed.

Lemma splitlines_no_newline s line :
  In line (splitlines s) -> Forall (fun c => is_newline c = false) line.
Proof.
  intros Hin.
  eapply Forall_impl;
    [|eapply (splitlines_from_no_boundary (n := List.length s)); eauto].
  intros c Hc. destruct (is_newline c) eqn:E; auto.
  apply is_newline_boundary in E. congruence.
Qed.

Lemma parse_add_char_state st r c r' :
  parse_add_char st r c = Ok r' -> state r' = st.
Proof.
  unfold parse_add_char. destruct (_ <=? _)%N; [discriminate|].
  now intros [= <-].
Qed.

Lemma parse_process_char_in_record r c r' :
  is_newline c = false ->
  (state r = START_RECORD \/ in_record (state r) = true) ->
  parse_process_char r (Some c) = Ok r' ->
  in_record (state r') = true.
Proof.
  intros Hc Hst. unfold parse_process_char, start_field.
  destruct (state r) eqn:Es; destruct Hst as [Hst|Hst]; try discriminate;
    rewrite ?Hc;
    repeat match goal with
           | |- context [(?a =? ?b)%N] => destruct (a =? b)%N
           end;
    intros H;
    try (apply parse_add_char_state in H; now rewrite H);
    injection H as <-; reflexivity.
Qed.

Lemma process_chars_in_record line :
  forall r r',
    Forall (fun c => is_newline c = false) line ->
    line <> [] ->
    (state r = START_RECORD \/ in_record (state r) = true) ->
    process_chars r line = Ok r' ->
    in_record (state r') = true.
Proof.
  induction line as [|c line IH]; intros r r' Hall Hne Hst; [congruence|].
  simpl. destruct (parse_process_char r (Some c)) as [r1|] eqn:E1; [|discriminate].
  apply Forall_inv in Hall as Hc. apply Forall_inv_tail in Hall.
  pose proof (@parse_process_char_in_record r c r1 Hc Hst E1) as H1.
  destruct line as [|d line'].
  - simpl. now intros [= <-].
  - apply IH; auto. discriminate.
Qed.

Lemma end_of_line_fields r r' :
  in_record (state r) = true ->
  parse_process_char r None = Ok r' ->
  is_start_record (state r') = true ->
  fields r' <> [].
Proof.
  unfold parse_process_char, start_field.
  destruct (state r) eqn:Es; try discriminate; intros _ [= <-]; simpl;
    try (intros _; now destruct (fields r));
    rewrite Es; discriminate.
Qed.

(** A line without quote characters that is no longer than the field limit
    is a record by itself. *)
Lemma process_chars_plain line :
  forall r,
    Forall (fun c => is_newline c = false /\ c <> quotechar) line ->
    (N.of_nat (List.length (field r) + List.length line) <= field_limit)%N ->
    (state r = START_RECORD \/ state r = START_FIELD \/ state r = IN_FIELD) ->
    exists r',
      process_chars r line = Ok r' /\
      (state r' = START_RECORD \/ state r' = START_FIELD \/ state r' = IN_FIELD).
Proof.
  induction line as [|c line IH]; intros r Hall Hlen Hst; [now exists r|].
  pose proof (Forall_inv Hall) as [Hnl Hq]. apply Forall_inv_tail in Hall.
  apply N.eqb_neq in Hq. cbn [List.length] in Hlen.
  assert (Hstep : exists r1,
    parse_process_char r (Some c) = Ok r1 /\
    (state r1 = START_FIELD \/ state r1 = IN_FIELD) /\
    (List.length (field r1) <= S (List.length (field r)))%nat).
  { unfold parse_process_char, start_field, parse_add_char.
    destruct (N.leb_spec field_limit (N.of_nat (List.length (field r)))); [lia|].
    destruct Hst as [->|[->| ->]]; rewrite Hnl, ?Hq;
      destruct (c =? delimiter)%N; eexists; (split; [reflexivity|]);
      cbn [state field parse_save_field List.length];
      rewrite ?length_app; cbn [List.length]; split; auto; lia. }
  destruct Hstep as (r1 & E1 & Hst1 & Hlen1).
  destruct (IH r1 Hall) as (r' & E' & Hst'); [lia | tauto |].
  exists r'. cbn [process_chars]. now rewrite E1.
Qed.

Lemma plain_line_row line :
  Forall (fun c => is_newline c = false /\ c <> quotechar) line ->
  (N.of_nat (List.length line) <= field_limit)%N ->
  line_row line <> None.
Proof.
  intros Hall Hlen.
  destruct (@process_chars_plain line parse_reset Hall) as (r & E & Hst);
    [exact Hlen | now left |].
  unfold line_row, process_line. rewrite E.
  unfold parse_process_char, start_field.
  destruct Hst as [Hs|[Hs|Hs]]; rewrite Hs; cbn [state parse_save_field];
    rewrite ?Hs; discriminate.
Qed.

(** A line of [splitlines] that is not empty gives a row that is not the
    empty list. *)
Lemma line_row_not_blank line row :
  Forall (fun c => is_newline c = false) line ->
  line <> [] ->
  line_row line = Some row ->
  row <> [].
Proof.
  unfold line_row, process_line. intros Hall Hne.
  destruct (process_chars parse_reset line) as [r1|] eqn:E1; [|discriminate].
  destruct (parse_process_char r1 None) as [r2|] eqn:E2; [|discriminate].
  destruct (is_start_record (state r2)) eqn:E3; [|discriminate].
  intros [= <-].
  apply (@end_of_line_fields r1 r2); auto.
  apply (@process_chars_in_record line parse_reset r1); auto.
Qed.

Lemma reader_rows_complete lines :
  Forall (fun l => line_row l <> None) lines ->
  reader_rows_from parse_reset lines =
    {| yielded := map row_of lines; raised := None |}.
Proof.
  induction 1 as [|l lines Hl Hall IH]; [reflexivity|].
  simpl. unfold row_of at 1. unfold line_row in *.
  destruct (process_line parse_reset l) as [r|]; [|congruence].
  destruct (is_start_record (state r)); [|congruence].
  now rewrite IH.
Qed.

(** *** The dict of a row *)

Lemma fold_dict_set {A : Type} (f : A -> pystr * option pystr) (l : list A) (d : dict) :
  fold_left (fun d x => dict_set d (fst (f x)) (snd (f x))) l d =
  rev (map f l) ++ d.
Proof.
  revert d. induction l as [|x l IH]; intros d; simpl; auto.
  rewrite IH. unfold dict_set. rewrite <- app_assoc. simpl.
  now destruct (f x).
Qed.

Lemma make_dict_pad_zip fieldnames row :
  make_dict fieldnames row = rev (pad_zip fieldnames row).
Proof.
  unfold make_dict.
  rewrite (fold_dict_set (fun k => (k, None))).
  rewrite (fold_dict_set (fun kv : pystr * pystr => (fst kv, Some (snd kv)))).
  rewrite app_nil_r, <- rev_app_distr. f_equal.
  revert row. induction fieldnames as [|k rest IH]; intros [|v row]; simpl; auto.
  - f_equal. specialize (IH []). simpl in IH.
    now destruct rest.
  - f_equal. apply IH.
Qed.

Lemma dict_get_app d1 d2 k :
  dict_get (d1 ++ d2) k =
  match dict_get d1 k with
  | Some v => Some v
  | None => dict_get d2 k
  end.
Proof.
  induction d1 as [|[k' v] d1 IH]; simpl; auto.
  destruct (pystr_eqb k k'); auto.
Qed.

Lemma dict_get_pad_zip fieldnames :
  forall row k,
    dict_get (rev (pad_zip fieldnames row)) k =
    option_map (nth_error row) (last_index k fieldnames).
Proof.
  induction fieldnames as [|k' rest IH]; intros row k; [reflexivity|].
  destruct row as [|v row]; simpl; rewrite dict_get_app, IH; simpl;
    destruct (last_index k rest) as [i|]; simpl; auto;
    try (destruct i; reflexivity);
    destruct (pystr_eqb k k'); reflexivity.
Qed.

Lemma getitem_make_dict fieldnames row k :
  In k fieldnames ->
  getitem (make_dict fieldnames row) k = Ok (cell fieldnames row k).
Proof.
  intros Hin. unfold getitem, cell.
  rewrite make_dict_pad_zip, dict_get_pad_zip.
  assert (H : last_index k fieldnames <> None).
  { induction fieldnames as [|k' rest IH]; [contradiction|]. simpl.
    destruct (last_index k rest); [discriminate|].
    destruct Hin as [->|Hin]; [|now destruct IH].
    rewrite pystr_eqb_refl. discriminate. }
  destruct (last_index k fieldnames); [reflexivity | congruence].
Qed.

Lemma make_player_make_dict fieldnames row :
  Forall (fun k => In k fieldnames) required_columns ->
  make_player (make_dict fieldnames row) = Ok (player_of_row fieldnames row).
Proof.
  intros H. unfold required_columns in H. simpl in H.
  repeat match goal with
         | H : Forall _ (_ :: _) |- _ =>
             let Hk := fresh "Hk" in
             pose proof (Forall_inv H) as Hk; apply Forall_inv_tail in H
         end.
  unfold make_player.
  repeat (rewrite getitem_make_dict by assumption; cbn [rbind]).
  reflexivity.
Qed.

Lemma yield_players_rows fieldnames rows :
  Forall (fun k => In k fieldnames) required_columns ->
  yield_players (map (make_dict fieldnames) rows) None =
    {| yielded := map (player_of_row fieldnames) rows; raised := None |}.
Proof.
  intros H. induction rows as [|row rows IH]; [reflexivity|].
  simpl. now rewrite make_player_make_dict, IH.
Qed.

(** What [load_data] hands out for a file whose header names the nine
    columns and whose other lines are records by themselves. *)
Lemma load_data_records (w : world) (header : pystr) (lines fieldnames : list pystr) :
  splitlines (csv_source w) = header :: lines ->
  line_row header = Some fieldnames ->
  Forall (fun k => In k fieldnames) required_columns ->
  Forall (fun l => l <> [] /\ line_row l <> None) lines ->
  load_data w =
    (Ok {| yielded := map (fun l => player_of_row fieldnames (row_of l)) lines;
           raised := None |}, w).
Proof.
  intros Hsplit Hheader Hcols Hlines.
  unfold load_data, bind, _get_csv_data, ret, parse_players, DictReader, reader_rows.
  rewrite Hsplit.
  rewrite reader_rows_complete.
  2:{ constructor; [congruence|].
      eapply Forall_impl; [|exact Hlines]. now intros l [_ H]. }
  cbn [yielded raised map]. unfold row_of at 1. rewrite Hheader.
  assert (Hfilter :
    filter (fun row => negb (is_blank_row row)) (map row_of lines)
    = map row_of lines).
  { assert (Hrows : Forall (fun l => row_of l <> []) lines).
    { rewrite Forall_forall in *. intros l Hl.
      destruct (Hlines l Hl) as [Hne Hrow]. unfold row_of.
      destruct (line_row l) as [row|] eqn:El; [|congruence].
      apply (@line_row_not_blank l row); auto.
      apply (splitlines_no_newline (csv_source w)).
      rewrite Hsplit. now right. }
    clear -Hrows. induction Hrows as [|l lines Hl Hall IH]; [reflexivity|].
    simpl. destruct (row_of l); [congruence|]. simpl. now rewrite IH. }
  rewrite Hfilter, yield_players_rows by assumption.
  now rewrite map_map.
Qed.

(** *** The lines of the text *)

Lemma csv_lines_from_head s :
  forall cur, cur <> [] ->
    exists l ls, csv_lines_from cur s = (rev cur ++ l) :: ls.
Proof.
  induction s as [|c rest IH]; intros cur Hcur.
  - exists [], []. cbn [csv_lines_from]. rewrite app_nil_r.
    destruct cur; [congruence | reflexivity].
  - assert (Hpush : exists l ls,
              csv_lines_from (c :: cur) rest = (rev cur ++ l) :: ls).
    { destruct (IH (c :: cur)) as (l & ls & E); [discriminate|].
      exists (c :: l), ls. rewrite E. cbn [rev]. now rewrite <- app_assoc. }
    cbn [csv_lines_from]. destruct (c =? 10)%N.
    + exists [], (csv_lines_from [] rest). now rewrite app_nil_r.
    + destruct rest as [|d rest']; [exact Hpush|].
      destruct ((c =? 13) && (d =? 10))%N; [|exact Hpush].
      exists [], (csv_lines_from [] rest'). now rewrite app_nil_r.
Qed.

(** On a text whose lines hold no other line boundary, [str.splitlines]
    gives the lines of the text. *)
Lemma splitlines_from_csv_lines n :
  forall s cur,
    (List.length s <= n)%nat ->
    no_line_boundary cur ->
    Forall no_line_boundary (csv_lines_from cur s) ->
    splitlines_from cur s = csv_lines_from cur s.
Proof.
  induction n as [|n IH]; intros s cur Hlen Hcur Hall.
  - destruct s; [reflexivity | simpl in Hlen; lia].
  - destruct s as [|c rest]; [reflexivity|].
    cbn [List.length] in Hlen. cbn [splitlines_from csv_lines_from] in *.
    destruct (N.eqb_spec c 10) as [->|Hc].
    + change (is_line_boundary 10) with true. cbv iota. f_equal.
      apply Forall_inv_tail in Hall.
      destruct rest as [|d rest']; [reflexivity|].
      change ((10 =? 13) && (d =? 10))%N with false. cbv iota.
      apply IH; [lia | constructor | exact Hall].
    + assert (Hpush :
        Forall no_line_boundary (csv_lines_from (c :: cur) rest) ->
        (if is_line_boundary c
         then rev cur ::
              match rest with
              | [] => []
              | d :: rest' =>
                  if ((c =? 13) && (d =? 10))%N then splitlines_from [] rest'
                  else splitlines_from [] rest
              end
         else splitlines_from (c :: cur) rest)
        = csv_lines_from (c :: cur) rest).
      { intros H.
        assert (Hb : is_line_boundary c = false).
        { destruct (@csv_lines_from_head rest (c :: cur)) as (l & ls & E);
            [discriminate|].
          rewrite E in H. apply Forall_inv in H.
          unfold no_line_boundary in H. rewrite Forall_forall in H.
          apply H, in_or_app. left. cbn [rev]. apply in_or_app. right.
          now left. }
        rewrite Hb. apply IH; [lia | now constructor | exact H]. }
      destruct rest as [|d rest']; [now apply Hpush|].
      destruct ((c =? 13) && (d =? 10))%N eqn:Ecr; [|now apply Hpush].
      apply andb_prop in Ecr as [Ec _]. apply N.eqb_eq in Ec. subst c.
      change (is_line_boundary 13) with true. cbv iota. f_equal.
      apply Forall_inv_tail in Hall. cbn [List.length] in Hlen.
      apply IH; [lia | constructor | exact Hall].
Qed.

Lemma splitlines_csv_lines s :
  Forall no_line_boundary (csv_lines s) -> splitlines s = csv_lines s.
Proof.
  intros H. apply (@splitlines_from_csv_lines (List.length s));
    [lia | constructor | exact H].
Qed.

Lemma no_line_boundary_forallb (lines : list pystr) :
  forallb (forallb (fun c => negb (is_line_boundary c))) lines = true ->
  Forall no_line_boundary lines.
Proof.
  intros H. apply Forall_forall. intros l Hl.
  rewrite forallb_forall in H. specialize (H l Hl).
  rewrite forallb_forall in H. apply Forall_forall. intros c Hc.
  specialize (H c Hc). now destruct (is_line_boundary c).
Qed.

(** What [load_data] hands out for a text whose first line names the nine
    columns and whose other lines are records by themselves, when no line
    holds a line boundary of [str.splitlines]. *)
Lemma load_data_csv_lines (w : world) (header : pystr) (lines fieldnames : list pystr) :
  csv_lines (csv_source w) = header :: lines ->
  Forall no_line_boundary (header :: lines) ->
  line_row header = Some fieldnames ->
  Forall (fun k => In k fieldnames) required_columns ->
  Forall (fun l => l <> [] /\ line_row l <> None) lines ->
  load_data w =
    (Ok {| yielded := map (fun l => player_of_row fieldnames (row_of l)) lines;
           raised := None |}, w).
Proof.
  intros Hlines Hnb Hheader Hcols Hrows.
  apply (@load_data_records w header lines fieldnames); auto.
  rewrite splitlines_csv_lines; [exact Hlines | now rewrite Hlines].
Qed.

Lemma player_fields_of_row fieldnames row :
  player_fields (player_of_row fieldnames row) =
  map (cell fieldnames row) required_columns.
Proof. reflexivity. Qed.

(** C6, as the claim states it, fails on a file whose one data line holds a
    form feed inside a field: the header names the nine columns, the data
    line is a record by itself, and [load_data] yields two records, because
    [str.splitlines] ends a line at the form feed. *)
Lemma load_data_form_feed_two_records :
  csv_lines (csv_source form_feed_world) = [csv_header; form_feed_line] /\
  line_row csv_header = Some required_columns /\
  form_feed_line <> [] /\
  line_row form_feed_line <> None /\
  exists p q,
    load_data form_feed_world
    = (Ok {| yielded := [p; q]; raised := None |}, form_feed_world).
Proof.
  split; [vm_compute; reflexivity|].
  split; [vm_compute; reflexivity|].
  split; [vm_compute; discriminate|].
  split; [vm_compute; discriminate|].
  vm_compute. eexists. eexists. reflexivity.
Qed.

(** C6, as the code has it.  For a text whose first line names the nine
    columns and whose other lines are not empty and are records by
    themselves, lines ending at a line feed, with or without a carriage
    return before it, and no line holding another character at which
    [str.splitlines] ends a line, [load_data] raises nothing and yields as
    many records as there are lines after the header, the i-th record being
    the one of the i-th of these lines. *)
Theorem load_data_one_record_per_line
  (w : world) (header : pystr) (lines fieldnames : list pystr) :
  csv_lines (csv_source w) = header :: lines ->
  Forall no_line_boundary (header :: lines) ->
  line_row header = Some fieldnames ->
  Forall (fun k => In k fieldnames) required_columns ->
  Forall (fun l => l <> [] /\ line_row l <> None) lines ->
  exists records,
    load_data w = (Ok {| yielded := records; raised := None |}, w) /\
    List.length records = List.length lines /\
    forall i line, nth_error lines i = Some line ->
      exists row,
        line_row line = Some row /\
        nth_error records i = Some (player_of_row fieldnames row).
Proof.
  intros Hsplit Hnb Hheader Hcols Hlines.
  exists (map (fun l => player_of_row fieldnames (row_of l)) lines).
  split; [now apply (@load_data_csv_lines w header lines fieldnames)|].
  split; [apply length_map|].
  intros i line Hi.
  rewrite Forall_forall in Hlines.
  destruct (Hlines line (nth_error_In _ _ Hi)) as [_ Hrow].
  destruct (line_row line) as [row|] eqn:El; [|congruence].
  exists row. split; [reflexivity|].
  rewrite nth_error_map, Hi. simpl. unfold row_of. now rewrite El.
Qed.

Lemma load_data_one_record_per_line_witness :
  exists records,
    load_data short_row_world
      = (Ok {| yielded := records; raised := None |}, short_row_world) /\
    List.length records = List.length [jordan_line; bowie_line] /\
    forall i line, nth_error [jordan_line; bowie_line] i = Some line ->
      exists row,
        line_row line = Some row /\
        nth_error records i = Some (player_of_row required_columns row).
Proof.
  apply (@load_data_one_record_per_line short_row_world csv_header
           [jordan_line; bowie_line] required_columns).
  - vm_compute. reflexivity.
  - apply no_line_boundary_forallb. vm_compute. reflexivity.
  - vm_compute. reflexivity.
  - apply Forall_forall. auto.
  - repeat (constructor; [split; vm_compute; discriminate|]). constructor.
Defined.

(** C7, as the claim states it, fails on a file whose second row stops after
    the second column: [load_data] raises nothing and yields a record for
    that row, with [None] in the seven fields the row lacks. *)
Lemma load_data_short_row_no_error :
  load_data short_row_world
  = (Ok {| yielded := [jordan; bowie]; raised := None |}, short_row_world).
Proof. vm_compute. reflexivity. Qed.

(** C7, as the code has it.  For a text whose first line names the nine
    columns and whose other lines are not empty and are records by
    themselves (lines as in C6), [load_data] raises nothing, also when a row
    has fewer fields than the header: it yields one record for every line,
    the i-th for the i-th line, and the record of a line holds under each
    of the nine columns the field of the row at the place of that column,
    which is [None] for every column that lies beyond the end of the
    row. *)
Theorem load_data_short_row_gives_none
  (w : world) (header : pystr) (lines fieldnames : list pystr) :
  csv_lines (csv_source w) = header :: lines ->
  Forall no_line_boundary (header :: lines) ->
  line_row header = Some fieldnames ->
  Forall (fun k => In k fieldnames) required_columns ->
  Forall (fun l => l <> [] /\ line_row l <> None) lines ->
  exists records,
    load_data w = (Ok {| yielded := records; raised := None |}, w) /\
    List.length records = List.length lines /\
    forall i line,
      nth_error lines i = Some line ->
      exists row p,
        line_row line = Some row /\
        nth_error records i = Some p /\
        forall j k c,
          nth_error required_columns j = Some k ->
          last_index k fieldnames = Some c ->
          nth_error (player_fields p) j = Some (nth_error row c) /\
          ((List.length row <= c)%nat ->
           nth_error (player_fields p) j = Some None).
Proof.
  intros Hsplit Hnb Hheader Hcols Hlines.
  exists (map (fun l => player_of_row fieldnames (row_of l)) lines).
  split; [now apply (@load_data_csv_lines w header lines fieldnames)|].
  split; [apply length_map|].
  intros i line Hi.
  rewrite Forall_forall in Hlines.
  destruct (Hlines line (nth_error_In _ _ Hi)) as [_ Hrow].
  destruct (line_row line) as [row|] eqn:El; [|congruence].
  exists row, (player_of_row fieldnames row).
  split; [reflexivity|]. split.
  - rewrite nth_error_map, Hi. simpl. unfold row_of. now rewrite El.
  - intros j k c Hj Hc.
    assert (E : nth_error (player_fields (player_of_row fieldnames row)) j
                = Some (nth_error row c)).
    { rewrite player_fields_of_row, nth_error_map, Hj. simpl.
      unfold cell. now rewrite Hc. }
    split; [exact E|].
    intros Hlen. rewrite E. f_equal. now apply nth_error_None.
Qed.

Lemma load_data_short_row_gives_none_witness :
  exists records,
    load_data short_row_world
      = (Ok {| yielded := records; raised := None |}, short_row_world) /\
    List.length records = List.length [jordan_line; bowie_line] /\
    forall i line,
      nth_error [jordan_line; bowie_line] i = Some line ->
      exists row p,
        line_row line = Some row /\
        nth_error records i = Some p /\
        forall j k c,
          nth_error required_columns j = Some k ->
          last_index k required_columns = Some c ->
          nth_error (player_fields p) j = Some (nth_error row c) /\
          ((List.length row <= c)%nat ->
           nth_error (player_fields p) j = Some None).
Proof.
  apply (@load_data_short_row_gives_none short_row_world csv_header
           [jordan_line; bowie_line] required_columns).
  - vm_compute. reflexivity.
  - apply no_line_boundary_forallb. vm_compute. reflexivity.
  - vm_compute. reflexivity.
  - apply Forall_forall. auto.
  - repeat (constructor; [split; vm_compute; discriminate|]). constructor.
Defined.

(** * Further properties

    ** import_to_db *)

(** What [import_to_db()] does, in terms of what the parser hands out. *)
Lemma import_to_db_none (E : engine) (P : Type) (w : world) :
  import_to_db E (@None P) w =
  let s := parse_players (csv_source w) in
  (match raised s with Some e => Raise e | None => Ok tt end,
   {| players := Some (rows_of w ++ map (insert_player E) (yielded s));
      commits := match raised s with
                 | Some _ => commits w
                 | None => S (commits w)
                 end;
      csv_source := csv_source w |}).
Proof.
  destruct w as [[t|] c s];
    cbv [import_to_db bind create_players_table load_data _get_csv_data
         ret executemany commit rows_of players commits csv_source];
    destruct (raised (parse_players s)); reflexivity.
Qed.

Lemma parse_players_records (content header : pystr) (lines fieldnames : list pystr) :
  splitlines content = header :: lines ->
  line_row header = Some fieldnames ->
  Forall (fun k => In k fieldnames) required_columns ->
  Forall (fun l => l <> [] /\ line_row l <> None) lines ->
  parse_players content =
    {| yielded := map (fun l => player_of_row fieldnames (row_of l)) lines;
       raised := None |}.
Proof.
  intros Hsplit Hheader Hcols Hlines.
  pose proof (@load_data_records
                {| players := None; commits := 0; csv_source := content |}
                header lines fieldnames Hsplit Hheader Hcols Hlines) as H.
  unfold load_data, bind, _get_csv_data, ret in H. cbn [csv_source] in H.
  now injection H.
Qed.

(** X2. On a file whose first line names the nine columns and whose other
    lines are not empty and are records by themselves, [import_to_db()]
    returns normally, appends to the rows the table had one row per line, in
    file order, and commits once. *)
Theorem import_to_db_appends_one_row_per_line
  (E : engine) (P : Type) (w : world) (header : pystr)
  (lines fieldnames : list pystr) :
  splitlines (csv_source w) = header :: lines ->
  line_row header = Some fieldnames ->
  Forall (fun k => In k fieldnames) required_columns ->
  Forall (fun l => l <> [] /\ line_row l <> None) lines ->
  exists added,
    import_to_db E (@None P) w =
      (Ok tt, {| players := Some (rows_of w ++ added);
                 commits := S (commits w);
                 csv_source := csv_source w |}) /\
    List.length added = List.length lines /\
    forall i line, nth_error lines i = Some line ->
      nth_error added i =
        Some (insert_player E (player_of_row fieldnames (row_of line))).
Proof.
  intros Hsplit Hheader Hcols Hlines.
  exists (map (insert_player E)
            (map (fun l => player_of_row fieldnames (row_of l)) lines)).
  rewrite import_to_db_none.
  rewrite (@parse_players_records _ header lines fieldnames Hsplit Hheader Hcols Hlines).
  cbn [yielded raised]. split; [reflexivity|].
  split; [now rewrite !length_map|].
  intros i line Hi. now rewrite !nth_error_map, Hi.
Qed.

Lemma import_to_db_appends_one_row_per_line_witness :
  exists added,
    import_to_db plain_engine (@None unit) short_row_world =
      (Ok tt, {| players := Some (rows_of short_row_world ++ added);
                 commits := S (commits short_row_world);
                 csv_source := csv_source short_row_world |}) /\
    List.length added = List.length [jordan_line; bowie_line] /\
    forall i line, nth_error [jordan_line; bowie_line] i = Some line ->
      nth_error added i =
        Some (insert_player plain_engine
                (player_of_row required_columns (row_of line))).
Proof.
  apply (@import_to_db_appends_one_row_per_line plain_engine unit
           short_row_world csv_header [jordan_line; bowie_line]
           required_columns).
  - vm_compute. reflexivity.
  - vm_compute. reflexivity.
  - apply Forall_forall. auto.
  - repeat (constructor; [split; vm_compute; discriminate|]). constructor.
Defined.

(** X3. After [import_to_db()] on such a file the row count the driver checks
    is the number of rows the table had plus the number of lines after the
    header; on a fresh database it is the number of those lines. *)
Theorem row_count_after_import
  (E : engine) (P : Type) (w : world) (header : pystr)
  (lines fieldnames : list pystr) :
  splitlines (csv_source w) = header :: lines ->
  line_row header = Some fieldnames ->
  Forall (fun k => In k fieldnames) required_columns ->
  Forall (fun l => l <> [] /\ line_row l <> None) lines ->
  fst ((_ <- import_to_db E (@None P) ;; _verify_total_row_count_after_import) w)
  = Ok (Z.of_nat (List.length (rows_of w) + List.length lines)).
Proof.
  intros Hsplit Hheader Hcols Hlines.
  unfold bind. rewrite import_to_db_none.
  rewrite (@parse_players_records _ header lines fieldnames Hsplit Hheader Hcols Hlines).
  cbn [yielded raised]. unfold _verify_total_row_count_after_import, execute.
  cbn [players fst]. now rewrite length_app, !length_map.
Qed.

Lemma row_count_after_import_witness :
  fst ((_ <- import_to_db plain_engine (@None unit) ;;
        _verify_total_row_count_after_import) short_row_world)
  = Ok (Z.of_nat (List.length (rows_of short_row_world)
                  + List.length [jordan_line; bowie_line])).
Proof.
  apply (@row_count_after_import plain_engine unit short_row_world csv_header
           [jordan_line; bowie_line] required_columns).
  - vm_compute. reflexivity.
  - vm_compute. reflexivity.
  - apply Forall_forall. auto.
  - repeat (constructor; [split; vm_compute; discriminate|]). constructor.
Defined.

(** X4. Whatever its argument and whatever the file holds, [import_to_db]
    leaves the table in existence, keeps every row the table had, in place
    and in order, and commits at most once; it commits only when it returns
    normally. *)
Theorem import_to_db_keeps_rows
  (E : engine) (P : Type) (p : option P) (w : world) :
  let w' := snd (import_to_db E p w) in
  (exists added, players w' = Some (rows_of w ++ added)) /\
  csv_source w' = csv_source w /\
  (commits w' = commits w \/
   commits w' = S (commits w) /\ fst (import_to_db E p w) = Ok tt).
Proof.
  destruct p as [p|].
  - unfold import_to_db, bind, create_players_table, ret, rows_of.
    destruct w as [[t|] c s]; cbn [players commits csv_source snd fst];
      (split; [exists []; now rewrite app_nil_r | split; [reflexivity | now left]]).
  - rewrite import_to_db_none. cbn [snd fst players commits csv_source].
    split; [eauto|]. split; [reflexivity|].
    destruct (raised (parse_players (csv_source w))); [now left | now right].
Qed.

(** ** load_data on other files *)

Lemma existsb_pystr_In k fieldnames :
  existsb (pystr_eqb k) fieldnames = true -> In k fieldnames.
Proof.
  intros H. apply existsb_exists in H. destruct H as (x & Hx & Heq).
  apply pystr_eqb_eq in Heq. now subst.
Qed.

Lemma last_index_missing k fieldnames :
  existsb (pystr_eqb k) fieldnames = false -> last_index k fieldnames = None.
Proof.
  induction fieldnames as [|k' rest IH]; [reflexivity|].
  cbn [existsb last_index]. intros H. apply orb_false_iff in H as [H1 H2].
  now rewrite (IH H2), H1.
Qed.

Lemma last_index_bound k fieldnames i :
  last_index k fieldnames = Some i -> (i < List.length fieldnames)%nat.
Proof.
  revert i. induction fieldnames as [|k' rest IH]; intros i; [discriminate|].
  cbn [last_index List.length].
  destruct (last_index k rest) as [j|].
  - intros [= <-]. specialize (IH j eq_refl). lia.
  - destruct (pystr_eqb k k'); [|discriminate]. intros [= <-]. lia.
Qed.

Lemma getitem_missing fieldnames row k :
  existsb (pystr_eqb k) fieldnames = false ->
  getitem (make_dict fieldnames row) k = Raise (KeyError k).
Proof.
  intros H. unfold getitem.
  now rewrite make_dict_pad_zip, dict_get_pad_zip, (@last_index_missing _ _ H).
Qed.

Lemma make_player_missing_column fieldnames row k :
  first_missing_column fieldnames = Some k ->
  make_player (make_dict fieldnames row) = Raise (KeyError k).
Proof.
  unfold first_missing_column, required_columns, make_player.
  cbn [map find]. intros H.
  repeat match type of H with
         | (if negb (existsb ?p fieldnames) then _ else _) = Some k =>
             let E := fresh "E" in
             destruct (existsb p fieldnames) eqn:E; cbn [negb] in H;
             [ rewrite (@getitem_make_dict fieldnames row _ (@existsb_pystr_In _ fieldnames E));
               cbn [rbind]
             | injection H as <-; rewrite (@getitem_missing fieldnames row _ E); reflexivity ]
         end.
  discriminate.
Qed.

Lemma row_of_blank : row_of [] = [].
Proof. reflexivity. Qed.

(** The dicts [DictReader] hands out when every line is a record by itself:
    one per line that is not empty. *)
Lemma DictReader_lines (content header : pystr) (lines fieldnames : list pystr) :
  splitlines content = header :: lines ->
  line_row header = Some fieldnames ->
  Forall (fun l => line_row l <> None) lines ->
  DictReader (splitlines content) =
    {| yielded := map (fun l => make_dict fieldnames (row_of l))
                    (filter (fun l => negb (is_blank_line l)) lines);
       raised := None |}.
Proof.
  intros Hsplit Hheader Hlines.
  unfold DictReader, reader_rows. rewrite Hsplit, reader_rows_complete
    by (constructor; [congruence | assumption]).
  cbn [yielded raised map]. unfold row_of at 1. rewrite Hheader. f_equal.
  rewrite <- map_map. f_equal.
  assert (Hnl : Forall (fun l => Forall (fun c => is_newline c = false) l) lines).
  { apply Forall_forall. intros l Hl. apply (splitlines_no_newline content).
    rewrite Hsplit. now right. }
  clear Hsplit Hheader.
  induction lines as [|l lines IH]; [reflexivity|].
  pose proof (Forall_inv Hlines) as Hl. pose proof (Forall_inv Hnl) as Hc.
  specialize (IH (Forall_inv_tail Hlines) (Forall_inv_tail Hnl)).
  cbn [map filter]. destruct l as [|c l'].
  - rewrite row_of_blank. cbn [is_blank_row is_blank_line negb]. exact IH.
  - cbn [is_blank_line negb map]. rewrite <- IH.
    unfold row_of at 1 3.
    destruct (line_row (c :: l')) as [row|] eqn:El; [|congruence].
    assert (row <> []) by (apply (@line_row_not_blank (c :: l') row); auto; discriminate).
    destruct row; [congruence|]. reflexivity.
Qed.

Lemma parse_players_blank_lines
  (content header : pystr) (lines fieldnames : list pystr) :
  splitlines content = header :: lines ->
  line_row header = Some fieldnames ->
  Forall (fun k => In k fieldnames) required_columns ->
  Forall (fun l => line_row l <> None) lines ->
  parse_players content =
    {| yielded :=
         map (fun l => player_of_row fieldnames (row_of l))
           (filter (fun l => negb (is_blank_line l)) lines);
       raised := None |}.
Proof.
  intros Hsplit Hheader Hcols Hlines. unfold parse_players.
  rewrite (@DictReader_lines _ header lines fieldnames Hsplit Hheader Hlines).
  cbn [yielded raised]. rewrite <- map_map.
  rewrite yield_players_rows by assumption. now rewrite map_map.
Qed.

Lemma parse_players_missing_column
  (content header : pystr) (lines fieldnames : list pystr) (k : pystr) :
  splitlines content = header :: lines ->
  line_row header = Some fieldnames ->
  Forall (fun l => line_row l <> None) lines ->
  first_missing_column fieldnames = Some k ->
  parse_players content =
    {| yielded := [];
       raised := if forallb is_blank_line lines then None
                 else Some (KeyError k) |}.
Proof.
  intros Hsplit Hheader Hlines Hk. unfold parse_players.
  rewrite (@DictReader_lines _ header lines fieldnames Hsplit Hheader Hlines).
  cbn [yielded raised]. clear Hsplit Hlines.
  induction lines as [|l lines IH]; [reflexivity|].
  cbn [filter forallb]. destruct (is_blank_line l); cbn [negb andb]; [exact IH|].
  cbn [map yield_players].
  now rewrite (@make_player_missing_column fieldnames _ k Hk).
Qed.

(** X5. Lines that are empty give no record: on a file whose first line
    names the nine columns and whose other lines are empty or records by
    themselves, [load_data] raises nothing and yields one record for every
    line after the header that is not empty, in file order. *)
Theorem load_data_skips_blank_lines
  (w : world) (header : pystr) (lines fieldnames : list pystr) :
  splitlines (csv_source w) = header :: lines ->
  line_row header = Some fieldnames ->
  Forall (fun k => In k fieldnames) required_columns ->
  Forall (fun l => line_row l <> None) lines ->
  load_data w =
    (Ok {| yielded :=
             map (fun l => player_of_row fieldnames (row_of l))
               (filter (fun l => negb (is_blank_line l)) lines);
           raised := None |}, w).
Proof.
  intros Hsplit Hheader Hcols Hlines.
  unfold load_data, bind, _get_csv_data, ret.
  now rewrite (@parse_players_blank_lines _ header lines fieldnames).
Qed.

Lemma load_data_skips_blank_lines_witness :
  load_data blank_line_world =
    (Ok {| yielded :=
             map (fun l => player_of_row required_columns (row_of l))
               (filter (fun l => negb (is_blank_line l))
                  [jordan_line; []; bowie_line]);
           raised := None |}, blank_line_world).
Proof.
  apply (@load_data_skips_blank_lines blank_line_world csv_header
           [jordan_line; []; bowie_line] required_columns).
  - vm_compute. reflexivity.
  - vm_compute. reflexivity.
  - apply Forall_forall. auto.
  - repeat (constructor; [vm_compute; discriminate|]). constructor.
Defined.

(** X6. When the header lacks one of the nine columns, [load_data] yields no
    record at all: it raises [KeyError] with the first missing column, in
    the order of the [Player(...)] call, as soon as a line after the header
    is not empty, and raises nothing when all of them are empty. *)
Theorem load_data_missing_column
  (w : world) (header : pystr) (lines fieldnames : list pystr) (k : pystr) :
  splitlines (csv_source w) = header :: lines ->
  line_row header = Some fieldnames ->
  Forall (fun l => line_row l <> None) lines ->
  first_missing_column fieldnames = Some k ->
  load_data w =
    (Ok {| yielded := [];
           raised := if forallb is_blank_line lines then None
                     else Some (KeyError k) |}, w).
Proof.
  intros Hsplit Hheader Hlines Hk.
  unfold load_data, bind, _get_csv_data, ret.
  now rewrite (@parse_players_missing_column _ header lines fieldnames k).
Qed.

Lemma load_data_missing_column_witness :
  load_data short_header_world =
    (Ok {| yielded := [];
           raised := if forallb is_blank_line [bowie_line] then None
                     else Some (KeyError (str "first_year")) |},
     short_header_world).
Proof.
  apply (@load_data_missing_column short_header_world short_header
           [bowie_line] [str "Player"; str "Draft_Yr"] (str "first_year")).
  - vm_compute. reflexivity.
  - vm_compute. reflexivity.
  - repeat (constructor; [vm_compute; discriminate|]). constructor.
  - vm_compute. reflexivity.
Defined.

(** X7. When the header lacks one of the nine columns and a line after it is
    not empty, [import_to_db()] raises the [KeyError] of [load_data]: the
    table exists afterwards with the rows it had and no other, and nothing
    is committed. *)
Theorem import_to_db_missing_column
  (E : engine) (P : Type) (w : world) (header : pystr)
  (lines fieldnames : list pystr) (k : pystr) :
  splitlines (csv_source w) = header :: lines ->
  line_row header = Some fieldnames ->
  Forall (fun l => line_row l <> None) lines ->
  first_missing_column fieldnames = Some k ->
  forallb is_blank_line lines = false ->
  import_to_db E (@None P) w =
    (Raise (KeyError k),
     {| players := Some (rows_of w); commits := commits w;
        csv_source := csv_source w |}).
Proof.
  intros Hsplit Hheader Hlines Hk Hblank.
  rewrite import_to_db_none.
  rewrite (@parse_players_missing_column _ header lines fieldnames k) by assumption.
  cbn [yielded raised map]. now rewrite Hblank, app_nil_r.
Qed.

Lemma import_to_db_missing_column_witness :
  import_to_db plain_engine (@None unit) short_header_world =
    (Raise (KeyError (str "first_year")),
     {| players := Some (rows_of short_header_world);
        commits := commits short_header_world;
        csv_source := csv_source short_header_world |}).
Proof.
  apply (@import_to_db_missing_column plain_engine unit short_header_world
           short_header [bowie_line] [str "Player"; str "Draft_Yr"]
           (str "first_year")).
  - vm_compute. reflexivity.
  - vm_compute. reflexivity.
  - repeat (constructor; [vm_compute; discriminate|]). constructor.
  - vm_compute. reflexivity.
  - vm_compute. reflexivity.
Defined.

Lemma make_player_ext (d d' : dict) :
  (forall k, dict_get d k = dict_get d' k) -> make_player d = make_player d'.
Proof.
  intros H. unfold make_player, getitem. now rewrite !H.
Qed.

(** X8. The fields of a row beyond the last column of the header play no
    part: a row that is at least as long as the header gives the record of
    the same row with any fields added at its end. *)
Theorem make_player_ignores_surplus_fields
  (fieldnames row surplus : list pystr) :
  (List.length fieldnames <= List.length row)%nat ->
  make_player (make_dict fieldnames (row ++ surplus)) =
  make_player (make_dict fieldnames row).
Proof.
  intros Hlen. apply make_player_ext. intros k.
  rewrite !make_dict_pad_zip, !dict_get_pad_zip.
  destruct (last_index k fieldnames) as [i|] eqn:Ei; [|reflexivity].
  apply last_index_bound in Ei. cbn [option_map].
  now rewrite nth_error_app1 by lia.
Qed.

Lemma make_player_ignores_surplus_fields_witness :
  make_player (make_dict [str "Player"; str "Draft_Yr"]
                 ([str "Sam Bowie"; str "1984"] ++ [str "POR"])) =
  make_player (make_dict [str "Player"; str "Draft_Yr"]
                 [str "Sam Bowie"; str "1984"]).
Proof.
  apply (@make_player_ignores_surplus_fields [str "Player"; str "Draft_Yr"]
           [str "Sam Bowie"; str "1984"] [str "POR"]).
  simpl. lia.
Defined.

(** ** The queries on other tables *)

(** X9. [player_with_max_points_per_game] compares cells as SQLite stores
    them, without a cast: as soon as one row holds a text in [avg_points]
    (a field that was no number), the player returned is one whose
    [avg_points] is a text, whatever numbers the other rows hold. *)
Theorem player_with_max_points_prefers_text
  (w : world) (t : table) (r0 : row) (s : pystr) :
  players w = Some t ->
  In r0 t ->
  avg_points r0 = Text s ->
  exists r s',
    In r t /\ avg_points r = Text s' /\
    player_with_max_points_per_game w = (Ok (name r), w).
Proof.
  intros Hw Hin Hs.
  assert (Ht : t <> []) by (intros ->; contradiction).
  destruct (select_max_spec avg_points Ht) as (i & r & Hi & Hbare & _ & Hle & _).
  specialize (Hle r0 Hin). rewrite Hs in Hle.
  destruct (avg_points r) as [| | |s'] eqn:Er;
    try (unfold value_le in Hle; simpl in Hle; congruence).
  exists r, s'. repeat split; auto.
  - eapply nth_error_In; eauto.
  - unfold player_with_max_points_per_game, execute, bare_column.
    now rewrite Hw, Hbare.
Qed.

Lemma player_with_max_points_prefers_text_witness :
  exists r s',
    In r text_points_table /\ avg_points r = Text s' /\
    player_with_max_points_per_game text_points_world
      = (Ok (name r), text_points_world).
Proof.
  apply (@player_with_max_points_prefers_text text_points_world
           text_points_table not_available_row (str "NA")).
  - reflexivity.
  - right. left. reflexivity.
  - reflexivity.
Defined.

(** X10. When every row has a NULL [avg_points], [MAX] has nothing to go by
    and [player_with_max_points_per_game] returns the name of the row
    inserted last. *)
Theorem player_with_max_points_all_null (w : world) (t : table) (r : row) :
  players w = Some (t ++ [r]) ->
  Forall (fun r' => avg_points r' = Null) (t ++ [r]) ->
  player_with_max_points_per_game w = (Ok (name r), w).
Proof.
  intros Hw Hall. apply Forall_app in Hall as [Ht Hr]. apply Forall_inv in Hr.
  unfold player_with_max_points_per_game, execute, bare_column.
  rewrite Hw, select_max_snoc. unfold max_step.
  now rewrite Hr, (best_all_null avg_points Ht).
Qed.

Lemma player_with_max_points_all_null_witness :
  player_with_max_points_per_game null_points_world
  = (Ok (name (null_points_row "Sam Bowie")), null_points_world).
Proof.
  apply (@player_with_max_points_all_null null_points_world
           [null_points_row "Len Bias"] (null_points_row "Sam Bowie")).
  - reflexivity.
  - repeat constructor.
Defined.

Lemma sql_count_zero {R : Type} (col : R -> value) (rows : list R) :
  sql_count col rows = 0%Z <-> Forall (fun r => col r = Null) rows.
Proof.
  unfold sql_count. split.
  - intros H. apply Forall_forall. intros r Hr.
    destruct (col r) eqn:Er; auto; exfalso;
      assert (Hin : In r (filter (fun r => negb (is_null (col r))) rows))
        by (apply filter_In; rewrite Er; auto);
      destruct (filter _ rows); [contradiction | simpl in H; lia |
                                 contradiction | simpl in H; lia |
                                 contradiction | simpl in H; lia].
  - induction 1 as [|r rows Hr Hall IH]; [reflexivity|].
    cbn [filter]. rewrite Hr. exact IH.
Qed.

(** X11. With the table in place, [percentage_of_players_first_year] raises
    [ZeroDivisionError] exactly when every row has a NULL [first_year] (an
    empty table included); in every other case it returns a float. *)
Theorem percentage_of_players_first_year_zero_division
  (E : engine) (w : world) (t : table) :
  players w = Some t ->
  (Forall (fun r => first_year r = Null) t ->
   percentage_of_players_first_year E w = (Raise ZeroDivisionError, w)) /\
  (~ Forall (fun r => first_year r = Null) t ->
   exists x, percentage_of_players_first_year E w = (Ok x, w)).
Proof.
  intros Hw.
  unfold percentage_of_players_first_year, _total_records, bind, execute, truediv.
  rewrite Hw. cbv beta iota. rewrite Hw. cbv beta iota.
  destruct (Z.eqb_spec (sql_count first_year t) 0) as [H0|H0];
    rewrite sql_count_zero in H0; split; intros H; try contradiction.
  - reflexivity.
  - eexists. reflexivity.
Qed.

Lemma percentage_of_players_first_year_zero_division_witness :
  (Forall (fun r => first_year r = Null) [null_points_row "Len Bias"] ->
   percentage_of_players_first_year plain_engine null_flag_world
     = (Raise ZeroDivisionError, null_flag_world)) /\
  (~ Forall (fun r => first_year r = Null) [null_points_row "Len Bias"] ->
   exists x, percentage_of_players_first_year plain_engine null_flag_world
             = (Ok x, null_flag_world)).
Proof.
  apply (@percentage_of_players_first_year_zero_division plain_engine
           null_flag_world [null_points_row "Len Bias"]).
  reflexivity.
Defined.






(** ** What depends on the order of the rows and what does not *)

Lemma filter_permutation {A : Type} (p : A -> bool) (l l' : list A) :
  Permutation l l' -> Permutation (filter p l) (filter p l').
Proof.
  induction 1 as [|x l l' H IH|x y l|l l' l'' H1 IH1 H2 IH2]; cbn [filter].
  - constructor.
  - destruct (p x); auto.
  - destruct (p x), (p y); auto. apply perm_swap.
  - etransitivity; eauto.
Qed.

Lemma sql_count_permutation {R : Type} (col : R -> value) (l l' : list R) :
  Permutation l l' -> sql_count col l = sql_count col l'.
Proof.
  intros H. unfold sql_count. f_equal.
  now apply Permutation_length, filter_permutation.
Qed.

(** X13. The counting queries do not depend on the order of the rows: on two
    tables with the same rows in any order, [number_of_players_from_duke],
    [percentage_of_players_first_year] and the row count of the driver
    return the same results. *)
Theorem counting_queries_ignore_row_order
  (E : engine) (w w' : world) (t t' : table) :
  players w = Some t ->
  players w' = Some t' ->
  Permutation t t' ->
  fst (number_of_players_from_duke E w) = fst (number_of_players_from_duke E w') /\
  fst (percentage_of_players_first_year E w)
    = fst (percentage_of_players_first_year E w') /\
  fst (_verify_total_row_count_after_import w)
    = fst (_verify_total_row_count_after_import w').
Proof.
  intros Hw Hw' Hperm.
  unfold number_of_players_from_duke, percentage_of_players_first_year,
    _verify_total_row_count_after_import, _total_records, bind, execute, truediv.
  rewrite Hw, Hw'. cbv beta iota. rewrite Hw, Hw'. cbv beta iota.
  rewrite (sql_count_permutation first_year Hperm).
  rewrite (sql_count_permutation name
             (filter_permutation
                (fun r => is_true (sql_like E (college r)
                                     (Text (str "Duke University")))) Hperm)).
  rewrite (sql_count_permutation first_year
             (filter_permutation
                (fun r => is_true (sql_like E (first_year r) (Integer 1))) Hperm)).
  rewrite (Permutation_length Hperm).
  repeat split.
  destruct (_ =? 0)%Z; reflexivity.
Qed.

Lemma counting_queries_ignore_row_order_witness :
  fst (number_of_players_from_duke plain_engine sample_world)
    = fst (number_of_players_from_duke plain_engine reversed_sample_world) /\
  fst (percentage_of_players_first_year plain_engine sample_world)
    = fst (percentage_of_players_first_year plain_engine reversed_sample_world) /\
  fst (_verify_total_row_count_after_import sample_world)
    = fst (_verify_total_row_count_after_import reversed_sample_world).
Proof.
  apply (@counting_queries_ignore_row_order plain_engine sample_world
           reversed_sample_world sample_table (rev sample_table)).
  - reflexivity.
  - reflexivity.
  - apply Permutation_rev.
Defined.

(** The year the query picks among the years of a table that is not empty. *)
Lemma most_frequent_year (t : table) :
  t <> [] ->
  let y := bare_column fst
             (select_max (fun g => Integer (snd g)) (group_by_count year t)) in
  In y (map year t) /\
  (forall v, In v (map year t) -> v <> Null ->
     y <> Null /\
     (occurrences v (map year t) <= occurrences y (map year t))%Z /\
     (occurrences v (map year t) = occurrences y (map year t) ->
      value_le y v)).
Proof.
  intros Ht.
  set (years := map year t).
  unfold group_by_count. fold years.
  set (ks := sort_by (asc (fun v : value => v)) years).
  assert (Hperm : Permutation ks years) by apply sort_by_perm.
  assert (Hsorted : StronglySorted value_le ks)
    by apply (sort_asc_sorted (fun v : value => v)).
  destruct (group_runs_spec Hsorted) as (G1 & G2 & G3).
  assert (Hgs : group_runs ks <> []).
  { destruct ks as [|k ks'] eqn:Eks.
    - apply Permutation_nil in Hperm. subst years.
      destruct t; [congruence | discriminate].
    - destruct (group_runs_head k ks') as (n & gs & ->). discriminate. }
  destruct (select_max_spec (fun g : value * Z => Integer (snd g)) Hgs)
    as (i & g & Hi & Hbare & _ & Hle & Hfirst).
  assert (Hocc : forall v, occurrences v years = occurrences v ks)
    by (intros v; symmetry; now apply occurrences_perm).
  assert (Hg : In g (group_runs ks)) by (eapply nth_error_In; eauto).
  destruct (G2 g Hg) as (Hgin & Hgn).
  unfold bare_column. rewrite Hbare. cbv zeta. split.
  - eapply Permutation_in; eauto.
  - intros v Hv Hn.
    assert (Hvks : In v ks) by (eapply Permutation_in; [symmetry|]; eauto).
    destruct (G3 v Hvks) as (g' & Hg' & Hvg').
    destruct (G2 g' Hg') as (_ & Hg'n).
    assert (Hov : occurrences v years = snd g').
    { rewrite Hocc, Hg'n. now apply occurrences_eqv. }
    assert (Hoy : occurrences (fst g) years = snd g) by (now rewrite Hocc).
    assert (Hmax : (snd g' <= snd g)%Z).
    { specialize (Hle g' Hg'). unfold value_le in Hle.
      rewrite value_compare_integer in Hle. now apply Z.compare_le_iff. }
    assert (Hpos : (0 < occurrences v years)%Z)
      by (apply occurrences_pos; auto).
    split; [|split].
    + intros Ey. rewrite Ey in Hoy.
      assert (occurrences Null years = 0%Z).
      { apply Z.le_antisymm; [|apply occurrences_nonneg].
        unfold occurrences.
        rewrite (@filter_ext _ _ (fun _ => false)), filter_false by
            (intros u; unfold value_eqb; destruct u; reflexivity).
        simpl. lia. }
      lia.
    + lia.
    + intros Etie.
      destruct (In_nth_error _ _ Hg') as (j & Hj).
      destruct (Nat.lt_trichotomy j i) as [Hji|[->|Hij]].
      * assert (value_lt (Integer (snd g')) (Integer (snd g)))
          by (eapply Hfirst; eauto; discriminate).
        unfold value_lt in H. rewrite value_compare_integer in H.
        change (snd g' < snd g)%Z in H. lia.
      * rewrite Hi in Hj. injection Hj as <-.
        apply value_eqv_le. now apply value_eqv_sym.
      * apply value_lt_le. eapply value_lt_eqv_r.
        -- apply (StronglySorted_nth G1 Hij Hi Hj).
        -- now apply value_eqv_sym.
Qed.

Lemma value_le_antisym a b : value_le a b -> value_le b a -> value_eqv a b.
Proof.
  unfold value_le, value_eqv. rewrite (cmp_opp value_compare a b).
  destruct (value_compare a b); simpl; congruence.
Qed.

(** X14. [year_with_most_drafts] does not depend on the order of the rows:
    on two tables with the same rows in any order it returns years that
    compare equal. *)
Theorem year_with_most_drafts_ignores_row_order
  (w w' : world) (t t' : table) :
  players w = Some t ->
  players w' = Some t' ->
  Permutation t t' ->
  exists y y',
    year_with_most_drafts w = (Ok y, w) /\
    year_with_most_drafts w' = (Ok y', w') /\
    value_eqv y y'.
Proof.
  intros Hw Hw' Hperm.
  unfold year_with_most_drafts, execute. rewrite Hw, Hw'.
  do 2 eexists. split; [reflexivity|]. split; [reflexivity|].
  destruct t as [|r0 t0].
  { apply Permutation_nil in Hperm. subst t'. reflexivity. }
  assert (Ht : r0 :: t0 <> []) by discriminate.
  assert (Ht' : t' <> []).
  { intros ->. apply Permutation_sym, Permutation_nil in Hperm. discriminate. }
  pose proof (most_frequent_year Ht) as [Hin H].
  pose proof (most_frequent_year Ht') as [Hin' H'].
  cbv zeta in *.
  remember (bare_column fst
              (select_max (fun g : value * Z => Integer (snd g))
                 (group_by_count year (r0 :: t0)))) as y eqn:Dy.
  remember (bare_column fst
              (select_max (fun g : value * Z => Integer (snd g))
                 (group_by_count year t'))) as y' eqn:Dy'.
  clear Dy Dy'.
  assert (Hyears : Permutation (map year (r0 :: t0)) (map year t'))
    by now apply Permutation_map.
  assert (Hocc : forall v, occurrences v (map year (r0 :: t0))
                           = occurrences v (map year t'))
    by (intros v; now apply occurrences_perm).
  assert (Hiny' : In y' (map year (r0 :: t0)))
    by (eapply Permutation_in; [symmetry; exact Hyears | exact Hin']).
  assert (Hiny : In y (map year t'))
    by (eapply Permutation_in; [exact Hyears | exact Hin]).
  assert (Hdec : forall v : value, v = Null \/ v <> Null)
    by (intros [| | |]; auto; right; discriminate).
  destruct (Hdec y) as [->|Hy].
  - (* every year is NULL *)
    destruct (Hdec y') as [->|Hy']; [reflexivity|].
    exfalso. destruct (H y' Hiny' Hy') as [Hn _]. now apply Hn.
  - destruct (H' y Hiny Hy) as (Hy' & Hle' & Htie').
    destruct (H y' Hiny' Hy') as (_ & Hle & Htie).
    rewrite !Hocc in *.
    apply value_le_antisym; [apply Htie | apply Htie']; lia.
Qed.

Lemma year_with_most_drafts_ignores_row_order_witness :
  exists y y',
    year_with_most_drafts sample_world = (Ok y, sample_world) /\
    year_with_most_drafts reversed_sample_world = (Ok y', reversed_sample_world) /\
    value_eqv y y'.
Proof.
  apply (@year_with_most_drafts_ignores_row_order sample_world
           reversed_sample_world sample_table (rev sample_table)).
  - reflexivity.
  - reflexivity.
  - apply Permutation_rev.
Defined.

(** ** Queries after an import *)

(** X15. With at most six rows of [active > 10] the ratio plays no part:
    [most_games_per_year_for_veterans] returns the names of all these rows,
    in ascending order. *)
Theorem most_games_per_year_for_veterans_at_most_six
  (E : engine) (w : world) (t : table) :
  players w = Some t ->
  let veterans := filter (fun r => is_true (sql_gt (active r) (Integer 10))) t in
  (List.length veterans <= 6)%nat ->
  exists result,
    most_games_per_year_for_veterans E w = (Ok result, w) /\
    Permutation result (map name veterans) /\
    StronglySorted value_le result.
Proof.
  intros Hw veterans Hlen.
  unfold most_games_per_year_for_veterans, execute, veterans_subquery.
  rewrite Hw. fold veterans. eexists. split; [reflexivity|].
  rewrite firstn_all2 by (now rewrite sort_by_length, length_map).
  split.
  - rewrite (Permutation_map fst (sort_by_perm _ _)).
    rewrite (Permutation_map fst (sort_by_perm _ _)).
    now rewrite map_map.
  - apply StronglySorted_map, sort_asc_sorted.
Qed.

Lemma most_games_per_year_for_veterans_at_most_six_witness :
  exists result,
    most_games_per_year_for_veterans plain_engine sample_world
      = (Ok result, sample_world) /\
    Permutation result
      (map name
         (filter (fun r => is_true (sql_gt (active r) (Integer 10))) sample_table)) /\
    StronglySorted value_le result.
Proof.
  apply (@most_games_per_year_for_veterans_at_most_six plain_engine
           sample_world sample_table).
  - reflexivity.
  - vm_compute. lia.
Defined.





(** X17. [import_to_db()] does not start from an empty table: called twice
    on the same file it returns normally both times, leaves every line of
    the file in the table twice, after the rows the table had, and commits
    twice. *)
Theorem import_to_db_twice
  (E : engine) (P : Type) (w : world) (header : pystr)
  (lines fieldnames : list pystr) :
  splitlines (csv_source w) = header :: lines ->
  line_row header = Some fieldnames ->
  Forall (fun k => In k fieldnames) required_columns ->
  Forall (fun l => l <> [] /\ line_row l <> None) lines ->
  exists added,
    List.length added = List.length lines /\
    (_ <- import_to_db E (@None P) ;; import_to_db E (@None P)) w =
      (Ok tt, {| players := Some (rows_of w ++ added ++ added);
                 commits := S (S (commits w));
                 csv_source := csv_source w |}).
Proof.
  intros Hsplit Hheader Hcols Hlines.
  exists (map (insert_player E)
            (map (fun l => player_of_row fieldnames (row_of l)) lines)).
  split; [now rewrite !length_map|].
  unfold bind. rewrite import_to_db_none.
  rewrite (@parse_players_records _ header lines fieldnames Hsplit Hheader Hcols Hlines).
  cbn [yielded raised]. rewrite import_to_db_none. cbn [csv_source commits].
  rewrite (@parse_players_records _ header lines fieldnames Hsplit Hheader Hcols Hlines).
  cbn [yielded raised]. unfold rows_of at 1. cbn [players].
  now rewrite app_assoc.
Qed.

Lemma import_to_db_twice_witness :
  exists added,
    List.length added = List.length [jordan_line; bowie_line] /\
    (_ <- import_to_db plain_engine (@None unit) ;;
     import_to_db plain_engine (@None unit)) short_row_world =
      (Ok tt, {| players := Some (rows_of short_row_world ++ added ++ added);
                 commits := S (S (commits short_row_world));
                 csv_source := csv_source short_row_world |}).
Proof.
  apply (@import_to_db_twice plain_engine unit short_row_world csv_header
           [jordan_line; bowie_line] required_columns).
  - vm_compute. reflexivity.
  - vm_compute. reflexivity.
  - apply Forall_forall. auto.
  - repeat (constructor; [split; vm_compute; discriminate|]). constructor.
Defined.


(** ** Reading back what a CSV writer wrote *)

Lemma process_chars_app a :
  forall r b,
    process_chars r (a ++ b) =
    match process_chars r a with
    | Ok r' => process_chars r' b
    | Raise e => Raise e
    end.
Proof.
  induction a as [|c a IH]; intros r b; [reflexivity|].
  cbn [app process_chars].
  destruct (parse_process_char r (Some c)); [apply IH | reflexivity].
Qed.

Lemma process_chars_cons r c line :
  process_chars r (c :: line) =
  match parse_process_char r (Some c) with
  | Ok r' => process_chars r' line
  | Raise e => Raise e
  end.
Proof. reflexivity. Qed.

Lemma process_chars_in_field f :
  forall r,
    state r = IN_FIELD ->
    forallb plain_char f = true ->
    (N.of_nat (List.length (field r) + List.length f) <= field_limit)%N ->
    process_chars r f =
      Ok {| state := IN_FIELD; field := field r ++ f; fields := fields r |}.
Proof.
  induction f as [|c f IH]; intros r Hst Hplain Hlen.
  - destruct r as [st fl fs]. cbn in Hst. subst st.
    cbn [process_chars field fields]. now rewrite app_nil_r.
  - cbn [forallb] in Hplain. apply andb_prop in Hplain as [Hc Hplain].
    unfold plain_char in Hc. rewrite !andb_true_iff, !negb_true_iff in Hc.
    destruct Hc as [[Hb Hq] Hd].
    assert (Hnl : is_newline c = false).
    { destruct (is_newline c) eqn:E; [|reflexivity].
      apply is_newline_boundary in E. congruence. }
    cbn [List.length] in Hlen.
    cbn [process_chars]. unfold parse_process_char. rewrite Hst, Hnl, Hd.
    unfold parse_add_char.
    destruct (N.leb_spec field_limit (N.of_nat (List.length (field r)))); [lia|].
    rewrite IH; cbn [state field fields]; auto.
    + now rewrite <- app_assoc.
    + rewrite length_app. cbn [List.length]. lia.
Qed.

Lemma process_chars_in_quoted_field f :
  forall r,
    state r = IN_QUOTED_FIELD ->
    (N.of_nat (List.length (field r) + List.length f) <= field_limit)%N ->
    process_chars r
      (flat_map (fun c => if (c =? quotechar)%N then [quotechar; quotechar] else [c]) f) =
      Ok {| state := IN_QUOTED_FIELD; field := field r ++ f; fields := fields r |}.
Proof.
  induction f as [|c f IH]; intros r Hst Hlen.
  - destruct r as [st fl fs]. cbn in Hst. subst st.
    cbn [flat_map process_chars field fields]. now rewrite app_nil_r.
  - cbn [List.length] in Hlen. cbn [flat_map].
    assert (Hlim : (field_limit <=? N.of_nat (List.length (field r)))%N = false)
      by (apply N.leb_gt; lia).
    destruct (c =? quotechar)%N eqn:Hq.
    + apply N.eqb_eq in Hq. subst c.
      assert (E1 : parse_process_char r (Some quotechar) =
                   Ok (set_state QUOTE_IN_QUOTED_FIELD r))
        by (unfold parse_process_char; rewrite Hst; reflexivity).
      assert (E2 : parse_process_char (set_state QUOTE_IN_QUOTED_FIELD r)
                     (Some quotechar) =
                   Ok {| state := IN_QUOTED_FIELD; field := field r ++ [quotechar];
                         fields := fields r |}).
      { unfold parse_process_char, parse_add_char.
        cbn [set_state state field fields]. rewrite N.eqb_refl, Hlim. reflexivity. }
      cbn [app]. rewrite process_chars_cons, E1, process_chars_cons, E2.
      rewrite IH; cbn [state field fields]; auto.
      * now rewrite <- app_assoc.
      * rewrite length_app. cbn [List.length]. lia.
    + assert (E1 : parse_process_char r (Some c) =
                   Ok {| state := IN_QUOTED_FIELD; field := field r ++ [c];
                         fields := fields r |}).
      { unfold parse_process_char, parse_add_char. rewrite Hst, Hq, Hlim.
        reflexivity. }
      cbn [app]. rewrite process_chars_cons, E1.
      rewrite IH; cbn [state field fields]; auto.
      * now rewrite <- app_assoc.
      * rewrite length_app. cbn [List.length]. lia.
Qed.

(** One written field, read at the start of a field. *)
Lemma process_chars_csv_field f r :
  (state r = START_RECORD \/ state r = START_FIELD) ->
  field r = [] ->
  (N.of_nat (List.length f) <= field_limit)%N ->
  exists st,
    (st = IN_FIELD \/ st = QUOTE_IN_QUOTED_FIELD) /\
    process_chars r (csv_field f) =
      Ok {| state := st; field := f; fields := fields r |}.
Proof.
  intros Hst Hfield Hlen.
  assert (Hquoted :
    process_chars r (csv_quote f) =
      Ok {| state := QUOTE_IN_QUOTED_FIELD; field := f; fields := fields r |}).
  { unfold csv_quote. cbn [process_chars].
    assert (E : parse_process_char r (Some quotechar) = Ok (set_state IN_QUOTED_FIELD r))
      by (unfold parse_process_char; destruct Hst as [-> | ->]; reflexivity).
    rewrite E, process_chars_app.
    rewrite process_chars_in_quoted_field;
      [|reflexivity | cbn [set_state field]; rewrite Hfield; exact Hlen].
    cbn [set_state field fields process_chars]. rewrite Hfield. reflexivity. }
  destruct f as [|c f].
  - exists QUOTE_IN_QUOTED_FIELD. split; [now right | exact Hquoted].
  - unfold csv_field. destruct (forallb plain_char (c :: f)) eqn:Hplain.
    2:{ exists QUOTE_IN_QUOTED_FIELD. split; [now right | exact Hquoted]. }
    exists IN_FIELD. split; [now left|].
    cbn [forallb] in Hplain. apply andb_prop in Hplain as [Hc Hplain].
    unfold plain_char in Hc. rewrite !andb_true_iff, !negb_true_iff in Hc.
    destruct Hc as [[Hb Hq] Hd].
    assert (Hnl : is_newline c = false).
    { destruct (is_newline c) eqn:E; [|reflexivity].
      apply is_newline_boundary in E. congruence. }
    cbn [List.length] in Hlen.
    assert (E : parse_process_char r (Some c) =
                Ok {| state := IN_FIELD; field := [c]; fields := fields r |}).
    { unfold parse_process_char, start_field, parse_add_char.
      destruct Hst as [-> | ->]; rewrite Hnl, Hq, Hd, Hfield;
        cbn [List.length];
        (destruct (N.leb_spec field_limit (N.of_nat 0)); [unfold field_limit in *; lia|]);
        reflexivity. }
    cbn [process_chars]. rewrite E.
    rewrite process_chars_in_field; cbn [state field fields]; auto.
Qed.

Lemma process_chars_csv_line row :
  forall r,
    row <> [] ->
    (state r = START_RECORD \/ state r = START_FIELD) ->
    field r = [] ->
    Forall (fun f => (N.of_nat (List.length f) <= field_limit)%N) row ->
    exists r',
      process_chars r (csv_line row) = Ok r' /\
      (state r' = IN_FIELD \/ state r' = QUOTE_IN_QUOTED_FIELD) /\
      fields r' ++ [field r'] = fields r ++ row.
Proof.
  induction row as [|f row IH]; intros r Hne Hst Hfield Hall; [congruence|].
  pose proof (Forall_inv Hall) as Hf. apply Forall_inv_tail in Hall.
  destruct (@process_chars_csv_field f r Hst Hfield Hf) as (st & Hst' & E).
  destruct row as [|g row].
  - cbn [csv_line]. eexists. split; [exact E|]. cbn [state field fields]. auto.
  - change (csv_line (f :: g :: row))
      with (csv_field f ++ delimiter :: csv_line (g :: row)).
    rewrite process_chars_app, E. cbn [process_chars].
    assert (E1 : parse_process_char {| state := st; field := f; fields := fields r |}
                   (Some delimiter) =
                 Ok {| state := START_FIELD; field := []; fields := fields r ++ [f] |})
      by (destruct Hst' as [-> | ->]; reflexivity).
    rewrite E1.
    destruct (IH {| state := START_FIELD; field := []; fields := fields r ++ [f] |})
      as (r' & E' & Hst'' & Hfields); auto; [discriminate|].
    exists r'. split; [exact E'|]. split; [exact Hst''|].
    rewrite Hfields. cbn [fields]. now rewrite <- app_assoc.
Qed.

(** A written row, read as a line, gives the row back, whatever characters
    its fields hold. *)
Lemma line_row_csv_line row :
  Forall (fun f => (N.of_nat (List.length f) <= field_limit)%N) row ->
  line_row (csv_line row) = Some row.
Proof.
  intros Hall. destruct row as [|f row]; [reflexivity|].
  destruct (@process_chars_csv_line (f :: row) parse_reset) as (r' & E & Hst & Hfields);
    auto; [discriminate|].
  unfold line_row, process_line. rewrite E.
  assert (E1 : parse_process_char r' None = Ok (parse_save_field START_RECORD r'))
    by (unfold parse_process_char; destruct Hst as [-> | ->]; reflexivity).
  rewrite E1. cbn [parse_save_field state fields is_start_record].
  now rewrite Hfields.
Qed.

Lemma splitlines_from_line l :
  forall cur rest,
    Forall (fun c => is_line_boundary c = false) l ->
    splitlines_from cur (l ++ 10%N :: rest) =
      (rev cur ++ l) :: splitlines_from [] rest.
Proof.
  induction l as [|c l IH]; intros cur rest Hall.
  - rewrite app_nil_r. cbn [app splitlines_from].
    change (is_line_boundary 10) with true. cbv iota.
    destruct rest as [|d rest']; reflexivity.
  - pose proof (Forall_inv Hall) as Hc. apply Forall_inv_tail in Hall.
    cbn [app splitlines_from]. rewrite Hc, IH by assumption.
    cbn [rev]. now rewrite <- app_assoc.
Qed.

Lemma splitlines_csv_text lines :
  Forall (Forall (fun c => is_line_boundary c = false)) lines ->
  splitlines (csv_text lines) = lines.
Proof.
  unfold splitlines, csv_text.
  induction 1 as [|l lines Hl Hall IH]; [reflexivity|].
  cbn [flat_map]. rewrite <- app_assoc. cbn [app].
  rewrite splitlines_from_line by assumption. cbn [rev app]. now rewrite IH.
Qed.

Lemma csv_field_no_boundary f :
  Forall (fun c => is_line_boundary c = false) f ->
  Forall (fun c => is_line_boundary c = false) (csv_field f).
Proof.
  intros Hf.
  assert (Hq : Forall (fun c => is_line_boundary c = false) (csv_quote f)).
  { unfold csv_quote. constructor; [reflexivity|].
    apply Forall_app. split; [|now constructor].
    apply Forall_flat_map. eapply Forall_impl; [|exact Hf].
    intros c Hc. destruct (c =? quotechar)%N; repeat constructor; auto. }
  unfold csv_field. destruct f; [exact Hq|].
  now destruct (forallb plain_char _).
Qed.

Lemma csv_line_no_boundary row :
  Forall (Forall (fun c => is_line_boundary c = false)) row ->
  Forall (fun c => is_line_boundary c = false) (csv_line row).
Proof.
  induction 1 as [|f row Hf Hall IH]; [constructor|].
  destruct row as [|g row]; [now apply csv_field_no_boundary|].
  change (csv_line (f :: g :: row))
    with (csv_field f ++ delimiter :: csv_line (g :: row)).
  apply Forall_app. split; [now apply csv_field_no_boundary|].
  constructor; [reflexivity | exact IH].
Qed.

Lemma csv_line_not_empty row : row <> [] -> csv_line row <> [].
Proof.
  assert (Hf : forall f, csv_field f <> []).
  { intros f. unfold csv_field, csv_quote.
    destruct f as [|c f]; [discriminate|].
    destruct (forallb plain_char (c :: f)); discriminate. }
  destruct row as [|f [|g row]]; [congruence | intros _; apply Hf |].
  intros _. change (csv_line (f :: g :: row))
    with (csv_field f ++ delimiter :: csv_line (g :: row)).
  intros H. apply app_eq_nil in H as [_ H]. discriminate.
Qed.

(** X18. [load_data] reads back what a CSV writer wrote.  For a file that
    holds a header with the nine columns and then rows that are not empty,
    whose fields hold no line break and stay within the field limit of the
    reader, every field written as it is or, if it is empty or holds a comma
    or a double quote, between double quotes with the double quotes doubled,
    [load_data] hands out the record of each row, in order, and raises
    nothing. *)
Theorem load_data_reads_written_rows
  (w : world) (fieldnames : list pystr) (rows : list (list pystr)) :
  csv_source w = csv_text (map csv_line (fieldnames :: rows)) ->
  Forall (fun k => In k fieldnames) required_columns ->
  Forall (fun row => row <> [] /\ writable row) (fieldnames :: rows) ->
  load_data w =
    (Ok {| yielded := map (player_of_row fieldnames) rows; raised := None |}, w).
Proof.
  intros Hsrc Hcols Hrows.
  assert (Hlimit : forall row, writable row ->
            Forall (fun f => (N.of_nat (List.length f) <= field_limit)%N) row).
  { intros row H. eapply Forall_impl; [|exact H]. now intros f [_ Hf]. }
  assert (Hboundary : forall row, writable row ->
            Forall (Forall (fun c => is_line_boundary c = false)) row).
  { intros row H. eapply Forall_impl; [|exact H]. now intros f [Hf _]. }
  pose proof (Forall_inv Hrows) as [_ Hheader].
  pose proof (Forall_inv_tail Hrows) as Hrest.
  rewrite (@load_data_records w (csv_line fieldnames) (map csv_line rows) fieldnames).
  - do 3 f_equal. rewrite map_map. apply map_ext_in. intros row Hin.
    rewrite Forall_forall in Hrest. destruct (Hrest row Hin) as [_ Hrow].
    unfold row_of. now rewrite line_row_csv_line by auto.
  - rewrite Hsrc, splitlines_csv_text; [reflexivity|].
    apply Forall_map. eapply Forall_impl; [|exact Hrows].
    intros row [_ Hrow]. apply csv_line_no_boundary; auto.
  - apply line_row_csv_line; auto.
  - exact Hcols.
  - apply Forall_map. eapply Forall_impl; [|exact Hrest].
    intros row [Hne Hrow]. split; [now apply csv_line_not_empty|].
    rewrite line_row_csv_line by auto. discriminate.
Qed.

Lemma load_data_reads_written_rows_witness :
  load_data written_world =
    (Ok {| yielded := map (player_of_row required_columns) [johnson_row];
           raised := None |}, written_world).
Proof.
  apply (@load_data_reads_written_rows written_world required_columns [johnson_row]).
  - reflexivity.
  - apply Forall_forall. auto.
  - repeat (constructor;
            [split; [discriminate|];
             apply Forall_forall; intros f Hf; split;
             [apply Forall_forall; intros c Hc|];
             vm_compute in Hf;
             repeat (destruct Hf as [<-|Hf]; [|]); try contradiction|]).
    all: try constructor.
    all: try (vm_compute; discriminate).
    all: vm_compute in Hc;
      repeat (destruct Hc as [<-|Hc]; [reflexivity|]); contradiction.
Defined.
